(** * parse_commit.py: extraction, message formatting and command generation

    A shallow embedding of [skills/safe-pilot-committing/parse_commit.py].
    Python strings are sequences of Unicode code points, decoded YAML
    documents are dynamically typed values, the functions of the script
    raise exceptions, and [print] fails on text the output stream cannot
    encode: the embedding keeps all four. *)

From Stdlib Require Import List NArith ZArith Bool Lia.
From Stdlib Require Import Ascii String DecimalString.
Import ListNotations.

Set Implicit Arguments.

(** ** Python strings *)

Module PyStr.

(** A [str] is a list of code points. *)
Definition char := N.
Definition str := list char.

(** An ASCII literal of the source, as a [str]. *)
Definition lit (s : string) : str :=
  map N_of_ascii (list_ascii_of_string s).

Definition nl : char := 10%N.      (* "\n" *)
Definition dq : char := 34%N.      (* the double quote *)
Definition bslash : char := 92%N.  (* the backslash *)

Fixpoint str_eqb (a b : str) : bool :=
  match a, b with
  | [], [] => true
  | x :: a', y :: b' => N.eqb x y && str_eqb a' b'
  | _, _ => false
  end.

(** [s * n] for a string [s]. *)
Fixpoint repeat_str (s : str) (n : nat) : str :=
  match n with
  | O => []
  | S n' => s ++ repeat_str s n'
  end.

(** [sep.join(parts)] on strings. *)
Fixpoint join (sep : str) (parts : list str) : str :=
  match parts with
  | [] => []
  | [p] => p
  | p :: rest => p ++ sep ++ join sep rest
  end.

(** The code points [str.strip()] removes (those with [str.isspace]). *)
Definition is_space (c : char) : bool :=
  ((9 <=? c) && (c <=? 13) || (28 <=? c) && (c <=? 32)
   || (c =? 133) || (c =? 160) || (c =? 5760)
   || (8192 <=? c) && (c <=? 8202)
   || (c =? 8232) || (c =? 8233) || (c =? 8239) || (c =? 8287)
   || (c =? 12288))%N.

Fixpoint lstrip (s : str) : str :=
  match s with
  | [] => []
  | c :: s' => if is_space c then lstrip s' else s
  end.

Definition rstrip (s : str) : str := rev (lstrip (rev s)).

(** [s.strip()] *)
Definition strip (s : str) : str := rstrip (lstrip s).

(** [s.replace(old, new)] for a one-character [old]. *)
Fixpoint replace_char (old : char) (new : str) (s : str) : str :=
  match s with
  | [] => []
  | c :: s' =>
      (if N.eqb c old then new else [c]) ++ replace_char old new s'
  end.

(** [s.startswith(p)], also giving the rest of [s]. *)
Fixpoint strip_prefix (p s : str) : option str :=
  match p, s with
  | [], _ => Some s
  | _ :: _, [] => None
  | x :: p', y :: s' => if N.eqb x y then strip_prefix p' s' else None
  end.

(** [str(n)] for an integer. *)
Definition of_Z (z : Z) : str :=
  lit (NilEmpty.string_of_int (Z.to_int z)).

(** *** Bytes

    A [bytes] object is a list of byte values; its methods work on
    ASCII only. *)
Definition bytes := list N.

Definition is_bspace (c : N) : bool :=
  ((c =? 32) || (9 <=? c) && (c <=? 13))%N.

Fixpoint bytes_lstrip (b : bytes) : bytes :=
  match b with
  | [] => []
  | c :: b' => if is_bspace c then bytes_lstrip b' else b
  end.

(** [b.strip()] *)
Definition bytes_strip (b : bytes) : bytes :=
  rev (bytes_lstrip (rev (bytes_lstrip b))).

(** [b.upper()] *)
Definition bytes_upper (b : bytes) : bytes :=
  map (fun c => if ((97 <=? c) && (c <=? 122))%N then (c - 32)%N else c) b.

Definition hex_digit (n : N) : char :=
  (if n <? 10 then 48 + n else 87 + n)%N.

(** One byte in [repr(b)], between quotes [quote]. *)
Definition repr_byte (quote : char) (c : N) : str :=
  (if (c =? quote) || (c =? 92) then [bslash; c]
   else if c =? 9 then [bslash; 116]
   else if c =? 10 then [bslash; 110]
   else if c =? 13 then [bslash; 114]
   else if (c <? 32) || (127 <=? c)
        then [bslash; 120; hex_digit (c / 16); hex_digit (c mod 16)]
   else [c])%N.

(** [repr(b)], which is also [str(b)]: single quotes, or double quotes
    when [b] holds a single quote and no double quote. *)
Definition repr_bytes (b : bytes) : str :=
  let quote :=
    if existsb (N.eqb 39) b && negb (existsb (N.eqb 34) b)
    then dq else 39%N in
  [98%N; quote] ++ flat_map (repr_byte quote) b ++ [quote].

End PyStr.
Import PyStr.

(** ** Decoded YAML values and the exceptions of the script *)

(** What [yaml.safe_load] returns: [None], booleans, integers, strings,
    bytes (a [!!binary] scalar), lists and mappings with string keys
    (in insertion order, keys distinct).  [VOther] stands for the
    remaining scalars (floats, dates): objects without string methods,
    known by their truth value, their [str()] and their [repr()].  Sets
    ([!!set]), whose iteration order is not fixed, are left out. *)
#[warnings="-register-all"] Inductive value : Type :=
| VNone
| VBool (b : bool)
| VInt (z : Z)
| VStr (s : str)
| VBytes (b : bytes)
| VOther (truth : bool) (shown : str) (shown_repr : str)
| VList (items : list value)
| VDict (entries : list (str * value)).

Inductive exn : Type :=
| KeyError (key : str)
| AttributeError
| TypeError
| OSError
| UnicodeEncodeError
| LoaderError
| SystemExit (code : Z).

Inductive result (A : Type) : Type :=
| Ok (a : A)
| Raise (e : exn).
Arguments Ok {A} a.
Arguments Raise {A} e.

Definition rbind {A B} (m : result A) (k : A -> result B) : result B :=
  match m with
  | Ok a => k a
  | Raise e => Raise e
  end.

Declare Scope result_scope.
Delimit Scope result_scope with res.
Notation "x <- m ;; k" := (rbind m (fun x => k))
  (at level 61, m at next level, right associativity) : result_scope.

(** The process's two output streams: one entry per [print] call that
    went through. *)
Record console : Type := Console { stdout : list str; stderr : list str }.

Definition io (A : Type) : Type := console -> console * result A.

Definition ioret {A} (a : A) : io A := fun c => (c, Ok a).

Definition iobind {A B} (m : io A) (k : A -> io B) : io B :=
  fun c =>
    match m c with
    | (c', Ok a) => k a c'
    | (c', Raise e) => (c', Raise e)
    end.

Definition lift {A} (r : result A) : io A := fun c => (c, r).

Declare Scope io_scope.
Delimit Scope io_scope with io.
Notation "x <- m ;; k" := (iobind m (fun x => k))
  (at level 61, m at next level, right associativity) : io_scope.
Notation "m ;; k" := (iobind m (fun _ => k))
  (at level 61, right associativity) : io_scope.

(** [print(s, file=sys.stderr)]: the diagnostic stream replaces what it
    cannot encode (its error handler is [backslashreplace]), so this
    never fails. *)
Definition print_err (s : str) : io unit :=
  fun c => (Console (stdout c) (stderr c ++ [s]), Ok tt).

(** [for x in xs: body(x)] *)
Fixpoint for_each {A} (xs : list A) (body : A -> io unit) : io unit :=
  match xs with
  | [] => ioret tt
  | x :: xs' => iobind (body x) (fun _ => for_each xs' body)
  end.

(** The status the interpreter exits with. *)
Definition exit_status (r : result unit) : Z :=
  match r with
  | Ok _ => 0
  | Raise (SystemExit code) => code
  | Raise _ => 1
  end.

(** ** Operations on values *)

(** [bool(v)] *)
Definition truthy (v : value) : bool :=
  match v with
  | VNone => false
  | VBool b => b
  | VInt z => negb (Z.eqb z 0)
  | VStr s => match s with [] => false | _ => true end
  | VBytes b => match b with [] => false | _ => true end
  | VOther t _ _ => t
  | VList xs => match xs with [] => false | _ => true end
  | VDict kvs => match kvs with [] => false | _ => true end
  end.

(** [v == s] for a string literal [s] *)
Definition eq_lit (v : value) (s : str) : bool :=
  match v with
  | VStr t => str_eqb t s
  | _ => false
  end.

Fixpoint lookup (k : str) (kvs : list (str * value)) : option value :=
  match kvs with
  | [] => None
  | (k', v) :: rest => if str_eqb k' k then Some v else lookup k rest
  end.

(** [v[k]] for a string key [k] *)
Definition getitem (v : value) (k : str) : result value :=
  match v with
  | VDict kvs =>
      match lookup k kvs with
      | Some x => Ok x
      | None => Raise (KeyError k)
      end
  | _ => Raise TypeError
  end.

(** [v.get(k)] *)
Definition get (v : value) (k : str) : result value :=
  match v with
  | VDict kvs =>
      match lookup k kvs with
      | Some x => Ok x
      | None => Ok VNone
      end
  | _ => Raise AttributeError
  end.

(** [iter(v)], all of it *)
Definition iterate (v : value) : result (list value) :=
  match v with
  | VList xs => Ok xs
  | VStr s => Ok (map (fun c => VStr [c]) s)
  | VBytes b => Ok (map (fun c => VInt (Z.of_N c)) b)
  | VDict kvs => Ok (map (fun kv => VStr (fst kv)) kvs)
  | _ => Raise TypeError
  end.

(** [len(v)] *)
Definition len (v : value) : result nat :=
  match v with
  | VList xs => Ok (List.length xs)
  | VStr s => Ok (List.length s)
  | VBytes b => Ok (List.length b)
  | VDict kvs => Ok (List.length kvs)
  | _ => Raise TypeError
  end.

(** [v.strip()]: strings and bytes have the method. *)
Definition strip_of (v : value) : result value :=
  match v with
  | VStr s => Ok (VStr (strip s))
  | VBytes b => Ok (VBytes (bytes_strip b))
  | _ => Raise AttributeError
  end.

(** [sep.join(parts)] on a list of values *)
Fixpoint strings_of (parts : list value) : result (list str) :=
  match parts with
  | [] => Ok []
  | VStr s :: rest =>
      match strings_of rest with
      | Ok ss => Ok (s :: ss)
      | Raise e => Raise e
      end
  | _ :: _ => Raise TypeError
  end.

Definition join_values (sep : str) (parts : list value) : result str :=
  match strings_of parts with
  | Ok ss => Ok (join sep ss)
  | Raise e => Raise e
  end.

(** ** The script *)

Section ParseCommit.

(** Three library functions the script calls are taken as given:
    [repr()] on a string, [str.upper()], and [yaml.safe_load]; and so is
    the encoding of standard output: [encodable s] says that it can
    encode [s]. *)
Variable repr_str : str -> str.
Variable upper : str -> str.
Variable encodable : str -> bool.
Variable safe_load : str -> result value.

(** [print(s)]: the text goes through the encoder of standard output,
    which raises on what it cannot encode; nothing of [s] is written
    then. *)
Definition print (s : str) : io unit :=
  fun c =>
    if encodable s
    then (Console (stdout c ++ [s]) (stderr c), Ok tt)
    else (c, Raise UnicodeEncodeError).

(** [repr(v)] *)
Fixpoint py_repr (v : value) : str :=
  match v with
  | VNone => lit "None"
  | VBool true => lit "True"
  | VBool false => lit "False"
  | VInt z => of_Z z
  | VStr s => repr_str s
  | VBytes b => repr_bytes b
  | VOther _ _ r => r
  | VList xs => lit "[" ++ join (lit ", ") (map py_repr xs) ++ lit "]"
  | VDict kvs =>
      lit "{"
      ++ join (lit ", ")
           (map (fun kv : str * value => let (k, x) := kv in
                           repr_str k ++ lit ": " ++ py_repr x) kvs)
      ++ lit "}"
  end.

(** [str(v)], which is what an f-string field [{v}] inserts *)
Definition py_str (v : value) : str :=
  match v with
  | VStr s => s
  | VOther _ s _ => s
  | _ => py_repr v
  end.

(** [v.upper()]: strings and bytes have the method. *)
Definition upper_of (v : value) : result value :=
  match v with
  | VStr s => Ok (VStr (upper s))
  | VBytes b => Ok (VBytes (bytes_upper b))
  | _ => Raise AttributeError
  end.

Definition open_tag : str := lit "<COMMIT_RECOMMENDATION>".
Definition close_tag : str := lit "</COMMIT_RECOMMENDATION>".

(** The lazy [(.*?)] under [re.DOTALL], followed by the closing tag:
    the group grows one character at a time until the closing tag
    matches at the current position. *)
Fixpoint lazy_group (s : str) : option str :=
  match strip_prefix close_tag s with
  | Some _ => Some []
  | None =>
      match s with
      | [] => None
      | c :: s' => option_map (cons c) (lazy_group s')
      end
  end.

(** The pattern tried at the start of [s]; the result is [group(1)]. *)
Definition match_here (s : str) : option str :=
  match strip_prefix open_tag s with
  | Some rest => lazy_group rest
  | None => None
  end.

(** [re.search(r'<COMMIT_RECOMMENDATION>(.*?)</COMMIT_RECOMMENDATION>',
    text, re.DOTALL)]: the start positions are tried from the left. *)
Fixpoint re_search (s : str) : option str :=
  match match_here s with
  | Some g => Some g
  | None =>
      match s with
      | [] => None
      | _ :: s' => re_search s'
      end
  end.

Definition parse_commit_recommendation (text : str) : result value :=
  match re_search text with
  | None => Ok VNone
  | Some group1 =>
      let yaml_content := strip group1 in
      safe_load yaml_content
  end.

(** The list [parts] of [format_commit_message] before it is joined. *)
Definition message_parts (commit : value) : result (list value) :=
  (sc <- get commit (lit "scope") ;;
   scope <- (if truthy sc
             then x <- getitem commit (lit "scope") ;;
                  Ok (lit "(" ++ py_str x ++ lit ")")
             else Ok []) ;;
   ty <- getitem commit (lit "type") ;;
   su <- getitem commit (lit "subject") ;;
   let subject := py_str ty ++ scope ++ lit ": " ++ py_str su in
   let parts := [VStr subject] in
   b <- get commit (lit "body") ;;
   parts <- (if truthy b
             then x <- getitem commit (lit "body") ;;
                  stripped <- strip_of x ;;
                  Ok (parts ++ [VStr []] ++ [stripped])
             else Ok parts) ;;
   c <- get commit (lit "closes") ;;
   if truthy c
   then b' <- get commit (lit "body") ;;
        let parts := if negb (truthy b') then parts ++ [VStr []] else parts in
        let parts := parts ++ [VStr []] in
        x <- getitem commit (lit "closes") ;;
        Ok (parts ++ [x])
   else Ok parts)%res.

Definition format_commit_message (commit : value) : result str :=
  (parts <- message_parts commit ;;
   join_values [nl] parts)%res.

Definition banner : str := repeat_str (lit "=") 60.

(** U+26D4 and U+26A0 U+FE0F, the two signs the script prints. *)
Definition no_entry : str := [9940%N].
Definition warning_sign : str := [9888%N; 65039%N].

(** One pass of the loop over [recommendation['commits']] in
    [print_summary]. *)
Definition print_commit (commit : value) : io unit :=
  (id <- lift (getitem commit (lit "id")) ;;
   print (lit "--- Commit " ++ py_str id ++ lit " ---") ;;
   ty <- lift (getitem commit (lit "type")) ;;
   print (lit "Type: " ++ py_str ty) ;;
   sc <- lift (get commit (lit "scope")) ;;
   (if truthy sc
    then x <- lift (getitem commit (lit "scope")) ;;
         print (lit "Scope: " ++ py_str x)
    else ioret tt) ;;
   su <- lift (getitem commit (lit "subject")) ;;
   print (lit "Subject: " ++ py_str su) ;;
   fs <- lift (getitem commit (lit "files")) ;;
   n <- lift (len fs) ;;
   print (lit "Files (" ++ of_Z (Z.of_nat n) ++ lit "):") ;;
   fs' <- lift (getitem commit (lit "files")) ;;
   paths <- lift (iterate fs') ;;
   for_each paths (fun file_path => print (lit "  - " ++ py_str file_path)) ;;
   br <- lift (get commit (lit "breaking")) ;;
   (if truthy br
    then print (warning_sign ++ lit "  BREAKING CHANGE")
    else ioret tt) ;;
   cl <- lift (get commit (lit "closes")) ;;
   (if truthy cl
    then x <- lift (getitem commit (lit "closes")) ;;
         print (lit "Closes: " ++ py_str x)
    else ioret tt) ;;
   print [])%io.

Definition print_summary (recommendation : value) : io unit :=
  (print banner ;;
   print (lit "COMMIT RECOMMENDATION SUMMARY") ;;
   print banner ;;
   st <- lift (getitem recommendation (lit "status")) ;;
   st_up <- lift (upper_of st) ;;
   print (lit "Status: " ++ py_str st_up) ;;
   scan <- lift (getitem recommendation (lit "security_scan")) ;;
   scan_up <- lift (upper_of scan) ;;
   print (lit "Security Scan: " ++ py_str scan_up) ;;
   issues <- lift (getitem recommendation (lit "issues_found")) ;;
   print (lit "Issues Found: " ++ py_str issues) ;;
   proposed <- lift (getitem recommendation (lit "commits_proposed")) ;;
   print (lit "Commits Proposed: " ++ py_str proposed) ;;
   print [] ;;
   st' <- lift (getitem recommendation (lit "status")) ;;
   if eq_lit st' (lit "blocked")
   then print (no_entry ++ lit " BLOCKED - Cannot proceed with commit") ;;
        print (lit "Review the security issues in the agent output above.")
   else
     cs <- lift (getitem recommendation (lit "commits")) ;;
     if negb (truthy cs)
     then print (lit "No commits proposed.")
     else
       cs' <- lift (getitem recommendation (lit "commits")) ;;
       commits <- lift (iterate cs') ;;
       for_each commits print_commit)%io.

(** The three commands one commit adds in [generate_git_commands]. *)
Definition commit_commands (commit : value) : result (list str) :=
  (fs <- getitem commit (lit "files") ;;
   paths <- iterate fs ;;
   let files :=
     join (lit " ") (map (fun f => [dq] ++ py_str f ++ [dq]) paths) in
   let add := lit "git add " ++ files in
   message <- format_commit_message commit ;;
   let message_escaped := replace_char dq [bslash; dq] message in
   Ok [add; lit "git commit -m " ++ [dq] ++ message_escaped ++ [dq]; []])%res.

(** The loop of [generate_git_commands], extending [commands]. *)
Fixpoint commands_loop (commits : list value) (commands : list str)
  : result (list str) :=
  match commits with
  | [] => Ok commands
  | commit :: rest =>
      (cmds <- commit_commands commit ;;
       commands_loop rest (commands ++ cmds))%res
  end.

Definition generate_git_commands (recommendation : value)
  : result (list str) :=
  (st <- getitem recommendation (lit "status") ;;
   if negb (eq_lit st (lit "safe"))
   then Ok []
   else
     cs <- getitem recommendation (lit "commits") ;;
     commits <- iterate cs ;;
     commands_loop commits [])%res.

(** The text [main] works on: the file named by the first argument, or
    standard input. *)
Definition read_input (argv : list str) (read_file : str -> result str)
  (stdin : str) : result str :=
  match argv with
  | _ :: path :: _ => read_file path
  | _ => Ok stdin
  end.

Definition main (argv : list str) (read_file : str -> result str)
  (stdin : str) : io unit :=
  (text <- lift (read_input argv read_file stdin) ;;
   recommendation <- lift (parse_commit_recommendation text) ;;
   (if negb (truthy recommendation)
    then print_err (lit "ERROR: No COMMIT_RECOMMENDATION block found in input") ;;
         lift (Raise (SystemExit 1))
    else ioret tt) ;;
   print_summary recommendation ;;
   st <- lift (getitem recommendation (lit "status")) ;;
   if eq_lit st (lit "safe")
   then print banner ;;
        print (lit "GIT COMMANDS TO EXECUTE") ;;
        print banner ;;
        commands <- lift (generate_git_commands recommendation) ;;
        for_each commands
          (fun cmd => match cmd with [] => ioret tt | _ => print cmd end) ;;
        print [] ;;
        print (warning_sign ++ lit "  Review these commands before executing!") ;;
        print (warning_sign ++ lit "  Ensure you have user approval before running.")
   else ioret tt)%io.

(** A run from empty streams: what was printed and the exit status. *)
Definition run (argv : list str) (read_file : str -> result str)
  (stdin : str) : console * Z :=
  let (c, r) := main argv read_file stdin (Console [] []) in
  (c, exit_status r).

End ParseCommit.

(** * Vocabulary of the specification *)

(** [p] occurs in [s]. *)
Definition occurs (p s : str) : Prop := exists a b, s = a ++ p ++ b.

(** [s] is [pre ++ p ++ rest], and no occurrence of [p] in [s] starts
    before this one. *)
Definition leftmost (p s pre rest : str) : Prop :=
  s = pre ++ p ++ rest /\
  forall a b, s = a ++ p ++ b -> List.length pre <= List.length a.

(** A region: an opening tag with a closing tag somewhere after it. *)
Definition has_region (s : str) : Prop :=
  exists a b c, s = a ++ open_tag ++ b ++ close_tag ++ c.

(** The region the search selects: it opens at the leftmost opening tag
    and closes at the leftmost closing tag after it. *)
Definition first_region (s pre inner post : str) : Prop :=
  exists rest,
    leftmost open_tag s pre rest /\ leftmost close_tag rest inner post.

Definition all_space (s : str) : Prop := forallb is_space s = true.

(** Neither the first nor the last character is white space. *)
Definition trimmed (m : str) : Prop :=
  (forall c t, m = c :: t -> is_space c = false) /\
  (forall t c, m = t ++ [c] -> is_space c = false).

(** The value of a field that is there and true in a condition. *)
Definition present (k : str) (entries : list (str * value)) : option value :=
  match lookup k entries with
  | Some v => if truthy v then Some v else None
  | None => None
  end.

(** The first line of the message, as the specification words it. *)
Definition subject_line (type : str) (scope : option str) (subject : str)
  : str :=
  match scope with
  | Some sc => type ++ lit "(" ++ sc ++ lit ")" ++ lit ": " ++ subject
  | None => type ++ lit ": " ++ subject
  end.

(** The message as the specification words it: a body comes after one
    blank line, a footer after one blank line when there is a body and
    after two when there is none. *)
Definition conventional_message (type : str) (scope : option str)
  (subject : str) (body closes : option str) : str :=
  subject_line type scope subject ++
  match body, closes with
  | None, None => []
  | Some b, None => [nl; nl] ++ b
  | Some b, Some c => [nl; nl] ++ b ++ [nl; nl] ++ c
  | None, Some c => [nl; nl; nl] ++ c
  end.

(** Every double quote of [m] with a backslash put before it. *)
Definition escape_quotes (m : str) : str :=
  flat_map (fun c => if N.eqb c dq then [bslash; dq] else [c]) m.

(** The staging command: each path between double quotes, as it is. *)
Definition staging_command (files : list str) : str :=
  lit "git add " ++ join (lit " ") (map (fun f => [dq] ++ f ++ [dq]) files).

(** The commit command for a formatted message. *)
Definition commit_command (message : str) : str :=
  lit "git commit -m " ++ [dq] ++ escape_quotes message ++ [dq].

(** ** Output streams *)

(** A stream that encodes every text. *)
Definition permissive (s : str) : bool := true.

(** A UTF-8 stream: every code point but the surrogates. *)
Definition utf8_encodable (s : str) : bool :=
  forallb (fun c => ((c <? 55296) || (57343 <? c)) && (c <=? 1114111))%N s.

(** ** Library functions on plain inputs

    Stand-ins for the three library functions, used where a property is
    run on a concrete input.  They agree with Python on the inputs they
    are run on: ASCII text for [ascii_upper], strings without quotes,
    backslashes or control characters for [quoted_repr], and the listed
    documents for [table_load]. *)

Definition ascii_upper (s : str) : str :=
  map (fun c => if ((97 <=? c) && (c <=? 122))%N then (c - 32)%N else c) s.

Definition quoted_repr (s : str) : str := lit "'" ++ s ++ lit "'".

Fixpoint table_load (docs : list (str * value)) (doc : str) : result value :=
  match docs with
  | [] => Raise LoaderError
  | (d, v) :: rest => if str_eqb d doc then Ok v else table_load rest doc
  end.

(** No file is named on the command line. *)
Definition no_file (path : str) : result str := Raise OSError.

(** The commit [{type: fix, subject: null check, closes: Closes #42}]. *)
Definition fix_closes_commit : value :=
  VDict [(lit "type", VStr (lit "fix"));
         (lit "subject", VStr (lit "null check"));
         (lit "closes", VStr (lit "Closes #42"))].

(** The line the entry point writes when it has no recommendation. *)
Definition not_found_line : str :=
  lit "ERROR: No COMMIT_RECOMMENDATION block found in input".

(** The whole summary of a blocked recommendation. *)
Definition blocked_summary (repr_str upper : str -> str) (scan : str)
  (issues proposed : value) : list str :=
  [banner;
   lit "COMMIT RECOMMENDATION SUMMARY";
   banner;
   lit "Status: " ++ upper (lit "blocked");
   lit "Security Scan: " ++ upper scan;
   lit "Issues Found: " ++ py_str repr_str issues;
   lit "Commits Proposed: " ++ py_str repr_str proposed;
   [];
   no_entry ++ lit " BLOCKED - Cannot proceed with commit";
   lit "Review the security issues in the agent output above."].

(** ** The records of the data model, as decoded values *)








(** The leftmost occurrence of [p] in [s], computed: what stands before
    it and what stands after it. *)
Fixpoint find_first (p s : str) : option (str * str) :=
  match strip_prefix p s with
  | Some rest => Some ([], rest)
  | None =>
      match s with
      | [] => None
      | c :: s' =>
          match find_first p s' with
          | Some (pre, rest) => Some (c :: pre, rest)
          | None => None
          end
      end
  end.

(** ** Sample inputs *)

(** A text of several lines. *)
Definition text_lines (l : list string) : str := join [nl] (map lit l).

Definition sample_commit : value :=
  VDict [(lit "id", VInt 1);
         (lit "type", VStr (lit "feat"));
         (lit "scope", VStr (lit "api"));
         (lit "subject", VStr (lit "add " ++ [dq] ++ lit "login" ++ [dq]));
         (lit "body", VStr (lit "  Adds the login route." ++ [nl]));
         (lit "files", VList [VStr (lit "src/my app.py");
                              VStr (lit "odd" ++ [dq] ++ lit "name.py")]);
         (lit "closes", VStr (lit "Closes #7"))].

Definition two_file_commit : value :=
  VDict [(lit "id", VInt 1);
         (lit "type", VStr (lit "fix"));
         (lit "subject", VStr (lit "say " ++ [dq] ++ lit "hi" ++ [dq]));
         (lit "files", VList [VStr (lit "a.py"); VStr (lit "b.py")])].

Definition recommendation_of (status : string) (commits : list value)
  : value :=
  VDict [(lit "status", VStr (lit status));
         (lit "security_scan", VStr (lit "failed"));
         (lit "issues_found", VInt 2);
         (lit "commits_proposed", VInt (Z.of_nat (List.length commits)));
         (lit "commits", VList commits)].

Definition entries_of (v : value) : list (str * value) :=
  match v with
  | VDict e => e
  | _ => []
  end.

(** The end-to-end input of the specification, and what the loader
    makes of its block. *)
Definition blocked_document : str :=
  text_lines ["status: blocked"; "security_scan: failed"; "issues_found: 2";
              "commits_proposed: 0"; "commits: []"]%string.

Definition blocked_input : str :=
  lit "noise " ++ open_tag ++ [nl] ++ blocked_document ++ [nl]
  ++ close_tag ++ lit " more noise".

Definition blocked_loader : str -> result value :=
  table_load [(blocked_document, recommendation_of "blocked" []); ([], VNone)].



(** A block with nothing but white space in it. *)
Definition blank_input : str :=
  lit "before " ++ open_tag ++ lit "  " ++ [nl] ++ close_tag ++ lit " after".

Definition script_name : list str := [lit "parse_commit.py"].

(** ** What a computation prints *)

(** [m] appends [lines] to standard output, leaves the diagnostic stream
    alone and ends with [r], whatever was printed before. *)
Definition writes {A} (m : io A) (lines : list str) (r : result A) : Prop :=
  forall c, m c = (Console (stdout c ++ lines) (stderr c), r).

Definition outputs {A} (m : io A) : Prop := exists lines r, writes m lines r.

(** [m] does what [m0] does, as long as every line [m0] adds to
    standard output can be encoded: [m0] is the computation on a stream
    that encodes everything. *)
Definition sim {A} (encodable : str -> bool) (m m0 : io A) : Prop :=
  forall c, exists lines,
    stdout (fst (m0 c)) = stdout c ++ lines /\
    (forallb encodable lines = true -> m c = m0 c).


(** A command that [main] prints: the separators are skipped. *)
Definition nonblank (cmd : str) : bool :=
  match cmd with
  | [] => false
  | _ => true
  end.

(** The first character of [p] does not come back later in [p]. *)
Definition head_unique (p : str) : bool :=
  match p with
  | [] => false
  | x :: t => forallb (fun c => negb (N.eqb c x)) t
  end.

(** What [print_summary] prints before the verdict. *)
Definition summary_header (repr_str upper : str -> str) (status scan : str)
  (issues proposed : value) : list str :=
  [banner;
   lit "COMMIT RECOMMENDATION SUMMARY";
   banner;
   lit "Status: " ++ upper status;
   lit "Security Scan: " ++ upper scan;
   lit "Issues Found: " ++ py_str repr_str issues;
   lit "Commits Proposed: " ++ py_str repr_str proposed;
   []].


(** The section [main] prints after the summary of a safe
    recommendation. *)
Definition commands_section (commands : list str) : list str :=
  [banner; lit "GIT COMMANDS TO EXECUTE"; banner]
  ++ filter nonblank commands
  ++ [[];
      warning_sign ++ lit "  Review these commands before executing!";
      warning_sign ++ lit "  Ensure you have user approval before running."].

(** Escaping undone: each backslash followed by a double quote becomes
    the double quote alone. *)
Fixpoint unescape_quotes (s : str) : str :=
  match s with
  | [] => []
  | b :: t =>
      match t with
      | q :: t' =>
          if N.eqb b bslash && N.eqb q dq
          then dq :: unescape_quotes t'
          else b :: unescape_quotes t
      | [] => [b]
      end
  end.

(** ** More sample inputs *)

(** A commit whose body is a number. *)
Definition numbered_body_commit : value :=
  VDict [(lit "id", VInt 2);
         (lit "type", VStr (lit "docs"));
         (lit "subject", VStr (lit "notes"));
         (lit "body", VInt 5);
         (lit "files", VList [VStr (lit "notes.md")])].

Definition safe_document : str :=
  text_lines ["status: safe"; "security_scan: failed"; "issues_found: 2";
              "commits_proposed: 1"; "commits:"; "  - id: 1";
              "    type: fix"; "    subject: say 'hi'";
              "    files: [a.py, b.py]"]%string.

Definition numbered_body_document : str :=
  text_lines ["status: safe"; "security_scan: failed"; "issues_found: 2";
              "commits_proposed: 1"; "commits:"; "  - id: 2";
              "    type: docs"; "    subject: notes"; "    body: 5";
              "    files: [notes.md]"]%string.

Definition safe_recommendation : value :=
  recommendation_of "safe"
    [VDict [(lit "id", VInt 1);
            (lit "type", VStr (lit "fix"));
            (lit "subject", VStr (lit "say 'hi'"));
            (lit "files", VList [VStr (lit "a.py"); VStr (lit "b.py")])]].

(** A loader that knows the sample documents; on the others it raises
    its error, as the real one does on [{]. *)
Definition sample_loader : str -> result value :=
  table_load
    [(blocked_document, recommendation_of "blocked" []);
     (safe_document, safe_recommendation);
     (numbered_body_document, recommendation_of "safe" [numbered_body_commit]);
     (lit "{}", VDict []);
     (lit "hello", VStr (lit "hello"));
     ([], VNone)].

Definition block_of (document : str) : str :=
  lit "noise " ++ open_tag ++ [nl] ++ document ++ [nl] ++ close_tag
  ++ lit " more noise".

(** A file system with one file. *)
Definition one_file (name content path : str) : result str :=
  if str_eqb path name then Ok content else Raise OSError.

(** [m] against the same computation [m0] on a stream that encodes
    everything: [m] writes what [m0] writes when all of it can be
    encoded, and stops with [UnicodeEncodeError] before the first line
    that cannot. *)
Definition follows {A} (encodable : str -> bool) (m m0 : io A) : Prop :=
  forall lines r,
    writes m0 lines r ->
    (forallb encodable lines = true -> writes m lines r) /\
    (forall before bad after,
        lines = before ++ bad :: after ->
        forallb encodable before = true ->
        encodable bad = false ->
        writes m before (Raise UnicodeEncodeError)).

(** A recommendation whose security scan holds a lone surrogate, as the
    YAML escape [\ud800] gives, and one whose status is bytes. *)
Definition surrogate_scan : value :=
  VDict [(lit "status", VStr (lit "blocked"));
         (lit "security_scan", VStr [55296%N]);
         (lit "issues_found", VInt 0);
         (lit "commits_proposed", VInt 0);
         (lit "commits", VList [])].


(** * Properties *)

(** ** Strings *)

Lemma str_eqb_eq (a b : str) : str_eqb a b = true <-> a = b.
Proof.
  revert b; induction a as [|x a IH]; intros [|y b]; simpl;
    try (split; [discriminate | discriminate]); try tauto.
  rewrite andb_true_iff, N.eqb_eq, IH.
  split; [intros [-> ->]; reflexivity | intros H; inversion H; auto].
Qed.

Lemma str_eqb_refl (a : str) : str_eqb a a = true.
Proof. apply str_eqb_eq; reflexivity. Qed.


Lemma strip_prefix_Some (p s r : str) :
  strip_prefix p s = Some r <-> s = p ++ r.
Proof.
  revert s; induction p as [|x p IH]; intros s; simpl.
  - split; [intros [= ->]; reflexivity | intros ->; reflexivity].
  - destruct s as [|y s].
    + split; [discriminate | discriminate].
    + destruct (N.eqb_spec x y) as [->|Hne].
      * rewrite IH. split; [intros ->; reflexivity | intros [= ->]; reflexivity].
      * split; [discriminate | intros [= -> _]; contradiction].
Qed.

Lemma strip_prefix_app (p r : str) : strip_prefix p (p ++ r) = Some r.
Proof. apply strip_prefix_Some; reflexivity. Qed.

Lemma leftmost_nil (p s rest : str) :
  leftmost p s [] rest <-> s = p ++ rest.
Proof.
  unfold leftmost; simpl; split; [tauto | intros H; split; [exact H | intros; lia]].
Qed.

Lemma leftmost_cons (p : str) (c : char) (s pre rest : str) :
  leftmost p (c :: s) (c :: pre) rest <->
  strip_prefix p (c :: s) = None /\ leftmost p s pre rest.
Proof.
  unfold leftmost; split.
  - intros [E Hmin]. injection E as E. repeat split.
    + destruct (strip_prefix p (c :: s)) as [r|] eqn:Hp; [|reflexivity].
      apply strip_prefix_Some in Hp.
      specialize (Hmin [] r Hp). simpl in Hmin. lia.
    + exact E.
    + intros a b Hab. specialize (Hmin (c :: a) b). simpl in Hmin.
      rewrite Hab in Hmin. specialize (Hmin eq_refl). lia.
  - intros [Hp [E Hmin]]. split; [simpl; rewrite E; reflexivity|].
    intros [|x a] b Hab.
    + simpl in Hab. apply strip_prefix_Some in Hab. congruence.
    + simpl in Hab. injection Hab as _ Hab. apply Hmin in Hab. simpl. lia.
Qed.

Lemma leftmost_head (p : str) (c : char) (s pre rest : str) :
  leftmost p (c :: s) pre rest ->
  (pre = [] /\ c :: s = p ++ rest) \/
  (exists pre', pre = c :: pre' /\ strip_prefix p (c :: s) = None
                /\ leftmost p s pre' rest).
Proof.
  intros H. destruct pre as [|x pre].
  - left. split; [reflexivity | apply leftmost_nil, H].
  - assert (x = c) as -> by (destruct H as [E _]; simpl in E; congruence).
    right. exists pre. split; [reflexivity | apply leftmost_cons, H].
Qed.

(** ** The regular-expression search *)


Lemma lazy_group_eq (s : str) :
  lazy_group s =
  match strip_prefix close_tag s with
  | Some _ => Some []
  | None =>
      match s with
      | [] => None
      | c :: s' => option_map (cons c) (lazy_group s')
      end
  end.
Proof. destruct s; reflexivity. Qed.

Lemma re_search_eq (s : str) :
  re_search s =
  match match_here s with
  | Some g => Some g
  | None =>
      match s with
      | [] => None
      | _ :: s' => re_search s'
      end
  end.
Proof. destruct s; reflexivity. Qed.

Lemma close_tag_cons : exists c t, close_tag = c :: t.
Proof. eexists; eexists; reflexivity. Qed.

Lemma strip_prefix_close_nil : strip_prefix close_tag [] = None.
Proof. reflexivity. Qed.

Opaque open_tag close_tag.

(** The lazy group ends at the leftmost closing tag. *)
Lemma lazy_group_Some (s g : str) :
  lazy_group s = Some g <-> exists post, leftmost close_tag s g post.
Proof.
  revert g; induction s as [|c s IH]; intros g; rewrite lazy_group_eq.
  - rewrite strip_prefix_close_nil. split; [discriminate|].
    intros [post [E _]]. destruct close_tag_cons as [x [t Ht]].
    rewrite Ht in E. destruct g; discriminate.
  - destruct (strip_prefix close_tag (c :: s)) as [r|] eqn:Hp.
    + apply strip_prefix_Some in Hp. split.
      * intros [= <-]. exists r. apply leftmost_nil, Hp.
      * intros [post [E Hmin]]. specialize (Hmin [] r Hp).
        destruct g; [reflexivity | simpl in Hmin; lia].
    + split.
      * destruct (lazy_group s) as [g'|] eqn:Hg; [|discriminate].
        intros [= <-]. destruct (proj1 (IH g') eq_refl) as [post Hl].
        exists post. apply leftmost_cons. split; assumption.
      * intros [post Hl]. apply leftmost_head in Hl.
        destruct Hl as [[-> E]|[pre' [-> [_ Hl]]]].
        -- apply strip_prefix_Some in E. congruence.
        -- rewrite (proj2 (IH pre') (ex_intro _ post Hl)). reflexivity.
Qed.

Lemma lazy_group_None (s : str) :
  lazy_group s = None <-> ~ occurs close_tag s.
Proof.
  induction s as [|c s IH]; rewrite lazy_group_eq.
  - rewrite strip_prefix_close_nil. split; [|reflexivity].
    intros _ [a [b E]]. destruct close_tag_cons as [x [t Ht]].
    rewrite Ht in E. destruct a; discriminate.
  - destruct (strip_prefix close_tag (c :: s)) as [r|] eqn:Hp.
    + apply strip_prefix_Some in Hp. split; [discriminate|].
      intros H. exfalso. apply H. exists [], r. exact Hp.
    + destruct (lazy_group s) as [g'|] eqn:Hg; simpl.
      * split; [discriminate|]. intros H. exfalso.
        apply lazy_group_Some in Hg. destruct Hg as [post [E _]].
        apply H. exists (c :: g'), post. simpl. rewrite E. reflexivity.
      * split; [|reflexivity]. intros _ [[|x a] [b E]].
        -- simpl in E. apply strip_prefix_Some in E. congruence.
        -- simpl in E. injection E as _ E.
           apply (proj1 IH eq_refl). exists a, b. exact E.
Qed.

(** A suffix that starts no later than an occurrence contains it. *)
Lemma occurs_suffix (p a r b t : str) :
  a ++ r = b ++ p ++ t -> List.length a <= List.length b -> occurs p r.
Proof.
  intros E Hlen. apply app_eq_app in E. destruct E as [l [[-> E]|[-> E]]].
  - rewrite length_app in Hlen.
    assert (l = []) as ->
      by (destruct l; [reflexivity | simpl in Hlen; lia]).
    simpl in E. exists [], t. symmetry; exact E.
  - exists l, t. exact E.
Qed.

Lemma match_here_Some (s g : str) :
  match_here s = Some g <-> exists post, first_region s [] g post.
Proof.
  unfold match_here, first_region. split.
  - destruct (strip_prefix open_tag s) as [rest|] eqn:Hp; [|discriminate].
    apply strip_prefix_Some in Hp. intros Hg.
    apply lazy_group_Some in Hg. destruct Hg as [post Hl].
    exists post, rest. split; [apply leftmost_nil, Hp | exact Hl].
  - intros [post [rest [Ho Hc]]]. apply leftmost_nil in Ho. subst s.
    rewrite strip_prefix_app. apply lazy_group_Some. exists post. exact Hc.
Qed.

Lemma match_here_None (s : str) :
  match_here s = None ->
  forall rest, s = open_tag ++ rest -> ~ occurs close_tag rest.
Proof.
  unfold match_here. intros H rest ->. rewrite strip_prefix_app in H.
  apply lazy_group_None, H.
Qed.

Lemma re_search_Some (s g : str) :
  re_search s = Some g <-> exists pre post, first_region s pre g post.
Proof.
  revert g; induction s as [|c s IH]; intros g; rewrite re_search_eq.
  - split; [discriminate|]. intros [pre [post [rest [[E _] _]]]].
    destruct pre; discriminate.
  - destruct (match_here (c :: s)) as [g'|] eqn:Hm.
    + pose proof (proj1 (match_here_Some _ _) Hm) as [post' [rest' [Ho' Hc']]].
      split.
      * intros [= <-]. exists [], post', rest'. split; assumption.
      * intros [pre [post [rest [Ho Hc]]]].
        assert (pre = []) as ->.
        { destruct Ho as [_ Hmin]. destruct Ho' as [E' _].
          specialize (Hmin [] rest' E'). destruct pre; [reflexivity | simpl in Hmin; lia]. }
        apply leftmost_nil in Ho, Ho'. rewrite Ho in Ho'.
        apply app_inv_head in Ho'. subst rest'.
        f_equal. destruct Hc as [E1 M1], Hc' as [E2 M2].
        pose proof (M1 _ _ E2). pose proof (M2 _ _ E1).
        rewrite E1 in E2. apply app_eq_app in E2.
        destruct E2 as [l [[-> _]|[-> _]]]; rewrite length_app in *;
          (assert (l = []) as -> by (destruct l; [reflexivity | simpl in *; lia]));
          rewrite app_nil_r; reflexivity.
    + rewrite IH. split.
      * intros [pre [post [rest [Ho Hc]]]].
        exists (c :: pre), post, rest. split; [|exact Hc].
        apply leftmost_cons. split; [|exact Ho].
        destruct (strip_prefix open_tag (c :: s)) as [r|] eqn:Hp; [|reflexivity].
        exfalso. apply strip_prefix_Some in Hp.
        apply (match_here_None Hm Hp).
        destruct Ho as [Eo _], Hc as [Ec _].
        assert (E : open_tag ++ r = (c :: pre ++ open_tag ++ g) ++ close_tag ++ post).
        { rewrite <- Hp, Eo, Ec. simpl. rewrite <- !app_assoc. reflexivity. }
        apply occurs_suffix in E; [exact E|].
        simpl. rewrite !length_app. lia.
      * intros [pre [post [rest [Ho Hc]]]].
        apply leftmost_head in Ho. destruct Ho as [[-> E]|[pre' [-> [_ Ho]]]].
        -- exfalso. assert (match_here (c :: s) = Some g) as Hs.
           { apply match_here_Some. exists post, rest. split; [apply leftmost_nil, E | exact Hc]. }
           congruence.
        -- exists pre', post, rest. split; assumption.
Qed.

Lemma re_search_None (s : str) : re_search s = None <-> ~ has_region s.
Proof.
  induction s as [|c s IH]; rewrite re_search_eq.
  - split; [|reflexivity]. intros _ [a [b [c' E]]].
    destruct a; discriminate.
  - destruct (match_here (c :: s)) as [g'|] eqn:Hm.
    + split; [discriminate|]. intros H. exfalso. apply H.
      apply match_here_Some in Hm. destruct Hm as [post [rest [Ho [Ec _]]]].
      apply leftmost_nil in Ho. exists [], g', post. simpl. rewrite Ho, Ec. reflexivity.
    + rewrite IH. split.
      * intros Hn [[|x a] [b [c' E]]].
        -- simpl in E. apply (match_here_None Hm E). exists b, c'. reflexivity.
        -- simpl in E. injection E as _ E. apply Hn. exists a, b, c'. exact E.
      * intros Hn [a [b [c' E]]]. apply Hn. exists (c :: a), b, c'.
        simpl. rewrite E. reflexivity.
Qed.

Transparent open_tag close_tag.

(** ** Stripping *)

Lemma all_space_app (a b : str) :
  all_space (a ++ b) <-> all_space a /\ all_space b.
Proof. unfold all_space. rewrite forallb_app, andb_true_iff. tauto. Qed.

Lemma all_space_rev (a : str) : all_space (rev a) <-> all_space a.
Proof.
  unfold all_space. rewrite !forallb_forall.
  split; intros H x Hx; apply H; [apply -> in_rev | apply <- in_rev]; exact Hx.
Qed.

Lemma lstrip_spaces (l s : str) : all_space l -> lstrip (l ++ s) = lstrip s.
Proof.
  unfold all_space. induction l as [|c l IH]; simpl; [reflexivity|].
  rewrite andb_true_iff. intros [-> H]. apply IH, H.
Qed.

Lemma lstrip_all_space (s : str) : all_space s -> lstrip s = [].
Proof.
  intros H. rewrite <- (app_nil_r s). rewrite lstrip_spaces by exact H.
  reflexivity.
Qed.

Lemma lstrip_head (c : char) (s : str) :
  is_space c = false -> lstrip (c :: s) = c :: s.
Proof. intros H. simpl. rewrite H. reflexivity. Qed.

Lemma lstrip_split (s : str) :
  exists l, s = l ++ lstrip s /\ all_space l /\
            forall c t, lstrip s = c :: t -> is_space c = false.
Proof.
  induction s as [|c s [l [E [Hl Hh]]]].
  - exists []. repeat split. intros c t; discriminate.
  - simpl. destruct (is_space c) eqn:Hc.
    + exists (c :: l). repeat split.
      * simpl. rewrite <- E. reflexivity.
      * unfold all_space. simpl. rewrite Hc. exact Hl.
      * exact Hh.
    + exists []. repeat split. intros x t [= <- _]. exact Hc.
Qed.

Lemma rstrip_split (s : str) :
  exists r, s = rstrip s ++ r /\ all_space r /\
            forall t c, rstrip s = t ++ [c] -> is_space c = false.
Proof.
  unfold rstrip. destruct (lstrip_split (rev s)) as [l [E [Hl Hh]]].
  exists (rev l). repeat split.
  - rewrite <- rev_app_distr, <- E, rev_involutive. reflexivity.
  - apply all_space_rev, Hl.
  - intros t c Ht. apply (Hh c (rev t)).
    rewrite <- (rev_involutive (lstrip (rev s))), Ht, rev_app_distr.
    reflexivity.
Qed.

(** [strip] removes white space at both ends, and nothing else. *)
Lemma strip_split (s : str) :
  exists l r, s = l ++ strip s ++ r /\ all_space l /\ all_space r /\
              trimmed (strip s).
Proof.
  unfold strip. destruct (lstrip_split s) as [l [El [Hl Hh]]].
  destruct (rstrip_split (lstrip s)) as [r [Er [Hr Ht]]].
  exists l, r. repeat split; try assumption.
  - rewrite <- Er. exact El.
  - intros c t Hc. apply (Hh c (t ++ r)). rewrite Er at 1. rewrite Hc.
    reflexivity.
Qed.

(** The trimmed middle of a string is what [strip] returns. *)
Lemma strip_unique (l m r : str) :
  all_space l -> all_space r -> trimmed m -> strip (l ++ m ++ r) = m.
Proof.
  intros Hl Hr [Hfirst Hlast]. unfold strip. rewrite lstrip_spaces by exact Hl.
  destruct m as [|c t].
  - simpl. rewrite (lstrip_all_space Hr). reflexivity.
  - cbn [app]. rewrite lstrip_head by (eapply Hfirst; reflexivity).
    unfold rstrip. change (c :: t ++ r) with ((c :: t) ++ r).
    rewrite rev_app_distr, lstrip_spaces by (apply all_space_rev, Hr).
    destruct (rev (c :: t)) as [|x u] eqn:Hrev.
    + apply (f_equal (@rev _)) in Hrev. rewrite rev_involutive in Hrev.
      discriminate.
    + rewrite lstrip_head.
      * rewrite <- Hrev. apply rev_involutive.
      * apply (Hlast (rev u) x). rewrite <- (rev_involutive (c :: t)), Hrev.
        reflexivity.
Qed.

Lemma strip_all_space (s : str) : all_space s -> strip s = [].
Proof.
  intros H. unfold strip. rewrite (lstrip_all_space H). reflexivity.
Qed.

(** ** Reading fields *)

Lemma get_present (k : str) (entries : list (str * value)) :
  exists v, get (VDict entries) k = Ok v /\
    match present k entries with
    | Some x => truthy v = true /\ lookup k entries = Some x /\ v = x
    | None => truthy v = false
    end.
Proof.
  unfold get, present. destruct (lookup k entries) as [x|].
  - exists x. split; [reflexivity|]. destruct (truthy x) eqn:T; auto.
  - exists VNone. split; reflexivity.
Qed.

Lemma getitem_lookup (k : str) (entries : list (str * value)) (v : value) :
  lookup k entries = Some v -> getitem (VDict entries) k = Ok v.
Proof. unfold getitem. intros ->. reflexivity. Qed.

Lemma eq_lit_true (v : value) (s : str) :
  eq_lit v s = true <-> v = VStr s.
Proof.
  destruct v; simpl; try (split; [discriminate | discriminate]).
  rewrite str_eqb_eq. split; [intros ->; reflexivity | intros [= ->]; reflexivity].
Qed.

(** ** The commit message *)

Section Message.

Variable repr_str : str -> str.

(** The list [parts] in terms of the fields that are present. *)
Lemma message_parts_present (entries : list (str * value)) (ty su : value) :
  lookup (lit "type") entries = Some ty ->
  lookup (lit "subject") entries = Some su ->
  match present (lit "body") entries with
  | Some (VStr _) | None => True
  | Some _ => False
  end ->
  message_parts repr_str (VDict entries) =
  Ok ([VStr (subject_line (py_str repr_str ty)
               (option_map (py_str repr_str) (present (lit "scope") entries))
               (py_str repr_str su))]
      ++ match present (lit "body") entries with
         | Some (VStr b) => [VStr []; VStr (strip b)]
         | _ => []
         end
      ++ match present (lit "closes") entries with
         | Some c =>
             match present (lit "body") entries with
             | Some _ => [VStr []; c]
             | None => [VStr []; VStr []; c]
             end
         | None => []
         end).
Proof.
  intros Hty Hsu Hbody. unfold message_parts.
  destruct (get_present (lit "scope") entries) as [sc [-> Hsc]].
  destruct (get_present (lit "body") entries) as [b [-> Hb]].
  destruct (get_present (lit "closes") entries) as [c [-> Hc]].
  cbn [rbind].
  rewrite (getitem_lookup _ _ Hty), (getitem_lookup _ _ Hsu).
  destruct (present (lit "scope") entries) as [scv|].
  - destruct Hsc as [-> [Hl ->]]. rewrite (getitem_lookup _ _ Hl). cbn [rbind].
    destruct (present (lit "body") entries) as [bv|].
    + destruct Hb as [-> [Hlb ->]]. rewrite (getitem_lookup _ _ Hlb).
      destruct bv; try contradiction. cbn [rbind strip_of negb].
      destruct (present (lit "closes") entries) as [cv|].
      * destruct Hc as [-> [Hlc ->]]. rewrite (getitem_lookup _ _ Hlc).
        cbn [rbind option_map subject_line]. rewrite <- !app_assoc. reflexivity.
      * rewrite Hc. cbn [option_map subject_line]. rewrite <- !app_assoc. reflexivity.
    + rewrite Hb. cbn [rbind negb].
      destruct (present (lit "closes") entries) as [cv|].
      * destruct Hc as [-> [Hlc ->]]. rewrite (getitem_lookup _ _ Hlc).
        cbn [rbind option_map subject_line]. rewrite <- !app_assoc. reflexivity.
      * rewrite Hc. cbn [option_map subject_line]. rewrite <- !app_assoc. reflexivity.
  - rewrite Hsc. cbn [rbind].
    destruct (present (lit "body") entries) as [bv|].
    + destruct Hb as [-> [Hlb ->]]. rewrite (getitem_lookup _ _ Hlb).
      destruct bv; try contradiction. cbn [rbind strip_of negb].
      destruct (present (lit "closes") entries) as [cv|].
      * destruct Hc as [-> [Hlc ->]]. rewrite (getitem_lookup _ _ Hlc).
        cbn [rbind option_map subject_line]. reflexivity.
      * rewrite Hc. cbn [option_map subject_line]. reflexivity.
    + rewrite Hb. cbn [rbind negb].
      destruct (present (lit "closes") entries) as [cv|].
      * destruct Hc as [-> [Hlc ->]]. rewrite (getitem_lookup _ _ Hlc).
        cbn [rbind option_map subject_line]. reflexivity.
      * rewrite Hc. cbn [option_map subject_line]. reflexivity.
Qed.

End Message.

Lemma find_first_leftmost (p s pre rest : str) :
  find_first p s = Some (pre, rest) -> leftmost p s pre rest.
Proof.
  revert pre; induction s as [|c s IH]; intros pre; simpl.
  - destruct (strip_prefix p []) as [r|] eqn:Hp; [|discriminate].
    intros [= <- <-]. apply leftmost_nil, strip_prefix_Some, Hp.
  - destruct (strip_prefix p (c :: s)) as [r|] eqn:Hp.
    + intros [= <- <-]. apply leftmost_nil, strip_prefix_Some, Hp.
    + destruct (find_first p s) as [[pre' rest']|]; [|discriminate].
      intros [= <- <-]. apply leftmost_cons. split; [exact Hp|].
      apply IH. reflexivity.
Qed.

Lemma first_region_found (s pre rest inner post : str) :
  find_first open_tag s = Some (pre, rest) ->
  find_first close_tag rest = Some (inner, post) ->
  first_region s pre inner post.
Proof.
  intros Ho Hc. exists rest.
  split; apply find_first_leftmost; assumption.
Qed.

(** ** Command generation *)

Lemma replace_char_escape (m : str) :
  replace_char dq [bslash; dq] m = escape_quotes m.
Proof.
  unfold escape_quotes. induction m as [|c m IH]; simpl; [reflexivity|].
  rewrite IH. reflexivity.
Qed.

Section Commands.

Variable repr_str : str -> str.

Lemma commit_commands_files (entries : list (str * value))
  (files : list str) (message : str) :
  lookup (lit "files") entries = Some (VList (map VStr files)) ->
  format_commit_message repr_str (VDict entries) = Ok message ->
  commit_commands repr_str (VDict entries) =
  Ok [staging_command files; commit_command message; []].
Proof.
  intros Hf Hm. unfold commit_commands.
  rewrite (getitem_lookup _ _ Hf). cbn [rbind iterate]. rewrite Hm.
  cbn [rbind]. rewrite replace_char_escape, map_map. reflexivity.
Qed.

Lemma commands_loop_acc (commits : list value) (acc : list str) :
  commands_loop repr_str commits acc =
  match commands_loop repr_str commits [] with
  | Ok cmds => Ok (acc ++ cmds)
  | Raise e => Raise e
  end.
Proof.
  revert acc; induction commits as [|c cs IH]; intros acc; simpl.
  - rewrite app_nil_r. reflexivity.
  - destruct (commit_commands repr_str c) as [cmds|e]; simpl; [|reflexivity].
    rewrite (IH (acc ++ cmds)), (IH cmds).
    destruct (commands_loop repr_str cs []); [|reflexivity].
    rewrite app_assoc. reflexivity.
Qed.

Lemma commands_loop_cons (c : value) (cs : list value) (cmds rest : list str) :
  commit_commands repr_str c = Ok cmds ->
  commands_loop repr_str cs [] = Ok rest ->
  commands_loop repr_str (c :: cs) [] = Ok (cmds ++ rest).
Proof.
  intros Hc Hr. simpl. rewrite Hc. simpl. rewrite commands_loop_acc, Hr.
  reflexivity.
Qed.

Lemma generate_safe (entries : list (str * value)) (commits : list value) :
  lookup (lit "status") entries = Some (VStr (lit "safe")) ->
  lookup (lit "commits") entries = Some (VList commits) ->
  generate_git_commands repr_str (VDict entries) =
  commands_loop repr_str commits [].
Proof.
  intros Hs Hc. unfold generate_git_commands.
  rewrite (getitem_lookup _ _ Hs), (getitem_lookup _ _ Hc). reflexivity.
Qed.

(** C1: a recommendation whose status is anything but the string
    ['safe'] yields no command at all, whatever its commits are. *)
Theorem generate_git_commands_not_safe (entries : list (str * value))
  (status : value) :
  lookup (lit "status") entries = Some status ->
  status <> VStr (lit "safe") ->
  generate_git_commands repr_str (VDict entries) = Ok [].
Proof.
  intros Hs Hne. unfold generate_git_commands.
  rewrite (getitem_lookup _ _ Hs). cbn [rbind].
  destruct (eq_lit status (lit "safe")) eqn:E; [|reflexivity].
  apply eq_lit_true in E. contradiction.
Qed.

(** C2: with type and subject present the message opens with
    [type(scope): subject], or [type: subject] when there is no scope; a
    body follows after one blank line; a closes footer follows the body
    after one blank line, and follows the subject line after two blank
    lines when there is no body.  The body stands there without white
    space at its ends, so it adds no blank line of its own. *)
Theorem format_commit_message_layout (entries : list (str * value))
  (ty su : value) (body closes : option str) :
  lookup (lit "type") entries = Some ty ->
  lookup (lit "subject") entries = Some su ->
  present (lit "body") entries = option_map VStr body ->
  present (lit "closes") entries = option_map VStr closes ->
  format_commit_message repr_str (VDict entries) =
  Ok (conventional_message (py_str repr_str ty)
        (option_map (py_str repr_str) (present (lit "scope") entries))
        (py_str repr_str su) (option_map strip body) closes) /\
  forall b, body = Some b -> trimmed (strip b).
Proof.
  intros Hty Hsu Hb Hc.
  split; [|intros b _; destruct (strip_split b) as [l [r [_ [_ [_ H]]]]];
           exact H].
  unfold format_commit_message.
  rewrite (message_parts_present repr_str _ Hty Hsu)
    by (rewrite Hb; destruct body; exact I).
  rewrite Hb, Hc. unfold conventional_message.
  destruct body as [b|], closes as [c|]; cbn [rbind option_map app];
    unfold join_values; cbn [strings_of join app];
    rewrite <- ?app_assoc, ?app_nil_r; reflexivity.
Qed.


(** C4: a safe recommendation with one commit on [a.py] and [b.py]
    yields three strings: the staging command with both paths in double
    quotes, the commit command with the formatted message, its double
    quotes escaped, and the empty separator. *)
Theorem generate_git_commands_one_commit (entries commit : list (str * value))
  (message : str) :
  lookup (lit "status") entries = Some (VStr (lit "safe")) ->
  lookup (lit "commits") entries = Some (VList [VDict commit]) ->
  lookup (lit "files") commit =
    Some (VList [VStr (lit "a.py"); VStr (lit "b.py")]) ->
  format_commit_message repr_str (VDict commit) = Ok message ->
  generate_git_commands repr_str (VDict entries) =
  Ok [lit "git add " ++ [dq] ++ lit "a.py" ++ [dq] ++ lit " "
        ++ [dq] ++ lit "b.py" ++ [dq];
      lit "git commit -m " ++ [dq] ++ escape_quotes message ++ [dq];
      []].
Proof.
  intros Hs Hc Hf Hm. rewrite (generate_safe _ Hs Hc).
  rewrite (@commands_loop_cons _ [] _ []
             (commit_commands_files commit [lit "a.py"; lit "b.py"] Hf Hm)
             eq_refl).
  reflexivity.
Qed.

(** C8: for a safe recommendation the staging command of a commit is
    [git add] followed by its paths, each between double quotes exactly
    as it stands and joined by single spaces; only the message has its
    double quotes escaped. *)
Theorem staging_paths_verbatim (entries : list (str * value))
  (commits : list (list (str * value) * list str * str)) :
  lookup (lit "status") entries = Some (VStr (lit "safe")) ->
  lookup (lit "commits") entries =
    Some (VList (map (fun c => VDict (fst (fst c))) commits)) ->
  Forall (fun c =>
            lookup (lit "files") (fst (fst c)) =
              Some (VList (map VStr (snd (fst c)))) /\
            format_commit_message repr_str (VDict (fst (fst c))) =
              Ok (snd c)) commits ->
  generate_git_commands repr_str (VDict entries) =
  Ok (flat_map (fun c =>
        [lit "git add "
           ++ join (lit " ") (map (fun f => [dq] ++ f ++ [dq]) (snd (fst c)));
         lit "git commit -m " ++ [dq] ++ escape_quotes (snd c) ++ [dq];
         []]) commits).
Proof.
  intros Hs Hc Hall. rewrite (generate_safe _ Hs Hc). clear Hs Hc.
  induction Hall as [|c cs [Hf Hm] _ IH]; [reflexivity|].
  cbn [map flat_map].
  apply commands_loop_cons; [|exact IH].
  apply commit_commands_files; assumption.
Qed.

End Commands.

(** ** The console *)

Lemma iobind_print {B} (s : str) (k : unit -> io B) (c : console) :
  iobind (print permissive s) k c =
  k tt (Console (stdout c ++ [s]) (stderr c)).
Proof. reflexivity. Qed.

Lemma iobind_lift_ok {A B} (a : A) (k : A -> io B) (c : console) :
  iobind (lift (Ok a)) k c = k a c.
Proof. reflexivity. Qed.

Lemma iobind_ret {A B} (a : A) (k : A -> io B) (c : console) :
  iobind (ioret a) k c = k a c.
Proof. reflexivity. Qed.

Ltac io_step :=
  first [ rewrite iobind_print | rewrite iobind_lift_ok | rewrite iobind_ret
        | progress cbn beta iota
        | progress cbn [stdout stderr upper_of] ].

Lemma writes_print_enc (encodable : str -> bool) (s : str) :
  encodable s = true -> writes (print encodable s) [s] (Ok tt).
Proof. intros E c. unfold print. rewrite E. reflexivity. Qed.

Lemma writes_print_fail (encodable : str -> bool) (s : str) :
  encodable s = false ->
  writes (print encodable s) [] (Raise UnicodeEncodeError).
Proof.
  intros E [o e]. unfold print. rewrite E. cbn [stdout stderr].
  rewrite app_nil_r. reflexivity.
Qed.

Lemma writes_print (s : str) : writes (print permissive s) [s] (Ok tt).
Proof. intros c. reflexivity. Qed.

Lemma writes_lift {A} (r : result A) : writes (lift r) [] r.
Proof.
  intros [o e]. unfold lift. cbn [stdout stderr]. rewrite app_nil_r.
  reflexivity.
Qed.

Lemma writes_ret {A} (a : A) : writes (ioret a) [] (Ok a).
Proof. apply (writes_lift (Ok a)). Qed.

Lemma writes_bind {A B} (m : io A) (k : A -> io B) (a : A)
  (l1 l2 : list str) (r : result B) :
  writes m l1 (Ok a) -> writes (k a) l2 r -> writes (iobind m k) (l1 ++ l2) r.
Proof.
  intros Hm Hk c. unfold iobind. rewrite Hm, Hk. cbn [stdout stderr].
  rewrite app_assoc. reflexivity.
Qed.

Lemma writes_bind_raise {A B} (m : io A) (k : A -> io B) (e : exn)
  (l : list str) :
  writes m l (Raise e) -> writes (iobind m k) l (Raise e).
Proof. intros Hm c. unfold iobind. rewrite Hm. reflexivity. Qed.

Lemma writes_lift_bind {A B} (r : result A) (a : A) (k : A -> io B)
  (l : list str) (r' : result B) :
  r = Ok a -> writes (k a) l r' -> writes (iobind (lift r) k) l r'.
Proof. intros -> Hk c. rewrite iobind_lift_ok. apply Hk. Qed.

Lemma writes_lift_raise {A B} (r : result A) (e : exn) (k : A -> io B) :
  r = Raise e -> writes (iobind (lift r) k) [] (Raise e).
Proof. intros ->. apply writes_bind_raise, writes_lift. Qed.


Lemma writes_ret_bind {A B} (a : A) (k : A -> io B) (l : list str)
  (r : result B) :
  writes (k a) l r -> writes (iobind (ioret a) k) l r.
Proof. intros H c. rewrite iobind_ret. apply H. Qed.

Lemma writes_print_bind_enc {B} (encodable : str -> bool) (s : str)
  (k : unit -> io B) (l : list str) (r : result B) :
  encodable s = true ->
  writes (k tt) l r -> writes (iobind (print encodable s) k) (s :: l) r.
Proof.
  intros E H.
  apply (writes_bind (l1 := [s]) _ (writes_print_enc encodable s E) H).
Qed.

Lemma writes_eq {A} (m : io A) (l l' : list str) (r : result A) :
  writes m l r -> l = l' -> writes m l' r.
Proof. intros H <-. exact H. Qed.

Lemma writes_run {A} (m : io A) (l l' : list str) (r r' : result A) :
  writes m l r -> m (Console [] []) = (Console l' [], r') -> l = l' /\ r = r'.
Proof.
  intros H E. rewrite H in E. cbn [stdout stderr app] in E.
  injection E as E1 E2. split; assumption.
Qed.

Lemma outputs_writes {A} (m : io A) (l : list str) (r : result A) :
  outputs m -> m (Console [] []) = (Console l [], r) -> writes m l r.
Proof.
  intros [l' [r' H]] E. destruct (writes_run H E) as [<- <-]. exact H.
Qed.

Lemma outputs_print (encodable : str -> bool) (s : str) :
  outputs (print encodable s).
Proof.
  destruct (encodable s) eqn:E; eexists; eexists.
  - apply (writes_print_enc encodable s E).
  - apply (writes_print_fail encodable s E).
Qed.

Lemma outputs_lift {A} (r : result A) : outputs (lift r).
Proof. eexists; eexists; apply writes_lift. Qed.

Lemma outputs_ret {A} (a : A) : outputs (ioret a).
Proof. eexists; eexists; apply writes_ret. Qed.

Lemma outputs_bind {A B} (m : io A) (k : A -> io B) :
  outputs m -> (forall a, outputs (k a)) -> outputs (iobind m k).
Proof.
  intros [l1 [[a|e] Hm]] Hk.
  - destruct (Hk a) as [l2 [r H2]]. exists (l1 ++ l2), r.
    apply (writes_bind _ Hm H2).
  - exists l1, (Raise e). apply writes_bind_raise, Hm.
Qed.

Lemma outputs_for_each {A} (xs : list A) (body : A -> io unit) :
  (forall x, outputs (body x)) -> outputs (for_each xs body).
Proof.
  intros H. induction xs as [|x xs IH]; simpl.
  - apply outputs_ret.
  - apply outputs_bind; [apply H | intros _; exact IH].
Qed.

Ltac outputs_step :=
  first [ apply outputs_print | apply outputs_lift | apply outputs_ret
        | apply outputs_for_each; intros ?
        | apply outputs_bind; [|intros ?]
        | match goal with
          | |- outputs (if ?b then _ else _) => destruct b
          end ].


Lemma writes_commands (encodable : str -> bool) (commands : list str) :
  forallb encodable (filter nonblank commands) = true ->
  writes (for_each commands
            (fun cmd =>
               match cmd with [] => ioret tt | _ => print encodable cmd end))
    (filter nonblank commands) (Ok tt).
Proof.
  induction commands as [|cmd cmds IH]; simpl.
  - intros _. apply writes_ret.
  - destruct cmd as [|c cmd]; cbn [nonblank].
    + intros H. apply writes_ret_bind, IH, H.
    + cbn [forallb]. rewrite andb_true_iff. intros [Hc H].
      apply writes_print_bind_enc; [exact Hc | apply IH, H].
Qed.


(** The lines a theorem supposes encodable, one by one. *)
Ltac split_encodable H :=
  cbn [app forallb] in H;
  repeat (apply andb_prop in H; let E := fresh "E" in destruct H as [E H]).

Ltac print_line := apply writes_print_bind_enc; [assumption|].

(** *** A stream that may fail against one that does not *)

Section Simulation.

Variable encodable : str -> bool.

Lemma sim_quiet {A} (m : io A) :
  (forall c, stdout (fst (m c)) = stdout c) -> sim encodable m m.
Proof.
  intros H c. exists []. rewrite app_nil_r. split; [apply H | reflexivity].
Qed.

Lemma sim_lift {A} (r : result A) : sim encodable (lift r) (lift r).
Proof. apply sim_quiet. reflexivity. Qed.

Lemma sim_ret {A} (a : A) : sim encodable (ioret a) (ioret a).
Proof. apply sim_quiet. reflexivity. Qed.

Lemma sim_print_err (s : str) : sim encodable (print_err s) (print_err s).
Proof. apply sim_quiet. reflexivity. Qed.

Lemma sim_print (s : str) :
  sim encodable (print encodable s) (print permissive s).
Proof.
  intros c. exists [s]. split; [reflexivity|].
  cbn [forallb]. rewrite andb_true_r. intros E. unfold print. rewrite E.
  reflexivity.
Qed.

Lemma sim_bind {A B} (m m0 : io A) (k k0 : A -> io B) :
  sim encodable m m0 ->
  (forall a, sim encodable (k a) (k0 a)) ->
  sim encodable (iobind m k) (iobind m0 k0).
Proof.
  intros Hm Hk c. destruct (Hm c) as [l1 [E1 T1]].
  destruct (m0 c) as [c1 [a|e]] eqn:E0; cbn [fst] in E1.
  - destruct (Hk a c1) as [l2 [E2 T2]]. exists (l1 ++ l2). split.
    + unfold iobind. rewrite E0, E2, E1, app_assoc. reflexivity.
    + rewrite forallb_app, andb_true_iff. intros [H1 H2].
      unfold iobind. rewrite (T1 H1), E0. apply T2, H2.
  - exists l1. split.
    + unfold iobind. rewrite E0. exact E1.
    + intros H1. unfold iobind. rewrite (T1 H1), E0. reflexivity.
Qed.

Lemma sim_for_each {A} (xs : list A) (body body0 : A -> io unit) :
  (forall x, sim encodable (body x) (body0 x)) ->
  sim encodable (for_each xs body) (for_each xs body0).
Proof.
  intros H. induction xs as [|x xs IH]; simpl.
  - apply sim_ret.
  - apply sim_bind; [apply H | intros _; exact IH].
Qed.

(** What [m0] writes, [m] writes too when it can be encoded. *)
Lemma sim_writes {A} (m m0 : io A) (l : list str) (r : result A) :
  sim encodable m m0 ->
  writes m0 l r ->
  forallb encodable l = true ->
  writes m l r.
Proof.
  intros Hs W Hl c. destruct (Hs c) as [l' [E T]].
  rewrite (W c) in E. cbn [fst stdout] in E. apply app_inv_head in E.
  subst l'. rewrite (T Hl). apply W.
Qed.

End Simulation.

Ltac sim_step :=
  first [ apply sim_print | apply sim_print_err | apply sim_lift
        | apply sim_ret
        | apply sim_for_each; intros ?
        | apply sim_bind; [|intros ?]
        | match goal with
          | |- sim _ (if ?b then _ else _) (if ?b then _ else _) =>
              destruct b
          | |- sim _ (match ?x with [] => _ | _ :: _ => _ end)
                     (match ?x with [] => _ | _ :: _ => _ end) =>
              destruct x
          end ].

Section ScriptSimulation.

Variables repr_str upper : str -> str.
Variable encodable : str -> bool.
Variable safe_load : str -> result value.


Lemma sim_print_summary (recommendation : value) :
  sim encodable (print_summary repr_str upper encodable recommendation)
    (print_summary repr_str upper permissive recommendation).
Proof.
  unfold print_summary. repeat sim_step.
Qed.



End ScriptSimulation.

(** C3, as the code has it: without a body the footer comes after two
    blank lines, so the message of this commit has three line breaks
    between [null check] and [Closes #42]. *)
Theorem format_commit_message_fix_closes (repr_str : str -> str) :
  format_commit_message repr_str fix_closes_commit =
  Ok (lit "fix: null check" ++ [nl; nl; nl] ++ lit "Closes #42").
Proof. reflexivity. Qed.

(** C3, as stated, fails: the message is not [fix: null check], one
    blank line, [Closes #42]. *)
Lemma format_commit_message_fix_closes_one_blank :
  format_commit_message quoted_repr fix_closes_commit <>
  Ok (lit "fix: null check" ++ [nl; nl] ++ lit "Closes #42").
Proof. intros H. vm_compute in H. discriminate H. Qed.

(** ** Extraction *)

Section Extraction.

Variable safe_load : str -> result value.

Lemma has_region_first (text : str) :
  has_region text -> exists pre inner post, first_region text pre inner post.
Proof.
  intros H. destruct (re_search text) as [g|] eqn:E.
  - apply re_search_Some in E. destruct E as [pre [post E]].
    exists pre, g, post. exact E.
  - apply re_search_None in E. contradiction.
Qed.

Lemma parse_first_region (text pre inner post : str) :
  first_region text pre inner post ->
  parse_commit_recommendation safe_load text = safe_load (strip inner).
Proof.
  intros H. unfold parse_commit_recommendation.
  rewrite (proj2 (re_search_Some text inner)); [reflexivity|].
  exists pre, post. exact H.
Qed.

Lemma parse_no_region (text : str) :
  ~ has_region text -> parse_commit_recommendation safe_load text = Ok VNone.
Proof.
  intros H. unfold parse_commit_recommendation.
  rewrite (proj2 (re_search_None text) H). reflexivity.
Qed.

(** C5: when the text has a region, the search takes the first one (the
    leftmost opening tag, the leftmost closing tag after it), whatever
    stands before and after, and what is decoded is its inner text
    without the white space at its two ends; when the text has no
    region the result is [None]. *)
Theorem extraction_first_region (text : str) :
  (forall pre inner post,
      first_region text pre inner post ->
      re_search text = Some inner /\
      parse_commit_recommendation safe_load text = safe_load (strip inner) /\
      exists l r, inner = l ++ strip inner ++ r /\
                  all_space l /\ all_space r /\ trimmed (strip inner)) /\
  (has_region text ->
      exists pre inner post, first_region text pre inner post) /\
  (~ has_region text ->
      re_search text = None /\
      parse_commit_recommendation safe_load text = Ok VNone).
Proof.
  split; [|split].
  - intros pre inner post H. split; [|split].
    + apply re_search_Some. exists pre, post. exact H.
    + apply (parse_first_region H).
    + apply strip_split.
  - apply has_region_first.
  - intros H. split; [apply re_search_None, H | apply parse_no_region, H].
Qed.

End Extraction.

(** ** The summary *)

Section Summary.

Variables repr_str upper : str -> str.
Variable encodable : str -> bool.

Lemma blocked_summary_permissive (r : list (str * value)) (scan : str)
  (issues proposed : value) :
  lookup (lit "status") r = Some (VStr (lit "blocked")) ->
  lookup (lit "security_scan") r = Some (VStr scan) ->
  lookup (lit "issues_found") r = Some issues ->
  lookup (lit "commits_proposed") r = Some proposed ->
  writes (print_summary repr_str upper permissive (VDict r))
    (blocked_summary repr_str upper scan issues proposed) (Ok tt).
Proof.
  intros H1 Es Ei Ep c.
  unfold print_summary, getitem. rewrite H1, Es, Ei, Ep.
  cbn [upper_of]. repeat io_step.
  change (eq_lit (VStr (lit "blocked")) (lit "blocked")) with true.
  repeat io_step. unfold print, permissive, blocked_summary.
  cbn [stdout stderr py_str]. rewrite <- !app_assoc. reflexivity.
Qed.

(** C7: the summary of a blocked recommendation is a function of its
    security scan and its two counts: two blocked recommendations that
    agree on them print the same, whatever their commits are; and what
    is printed, when standard output can encode it, is the header and
    the blocking notice, with no line for any commit or file. *)
Theorem print_summary_blocked (r1 r2 : list (str * value)) (out : console) :
  lookup (lit "status") r1 = Some (VStr (lit "blocked")) ->
  lookup (lit "status") r2 = Some (VStr (lit "blocked")) ->
  lookup (lit "security_scan") r1 = lookup (lit "security_scan") r2 ->
  lookup (lit "issues_found") r1 = lookup (lit "issues_found") r2 ->
  lookup (lit "commits_proposed") r1 = lookup (lit "commits_proposed") r2 ->
  print_summary repr_str upper encodable (VDict r1) out =
  print_summary repr_str upper encodable (VDict r2) out /\
  forall scan issues proposed,
    lookup (lit "security_scan") r1 = Some (VStr scan) ->
    lookup (lit "issues_found") r1 = Some issues ->
    lookup (lit "commits_proposed") r1 = Some proposed ->
    forallb encodable (blocked_summary repr_str upper scan issues proposed)
      = true ->
    print_summary repr_str upper encodable (VDict r1) out =
    (Console (stdout out ++ blocked_summary repr_str upper scan issues proposed)
       (stderr out), Ok tt).
Proof.
  intros H1 H2 Hscan Hissues Hprop. split.
  - unfold print_summary, getitem.
    rewrite H1, H2, Hscan, Hissues, Hprop. reflexivity.
  - intros scan issues proposed Es Ei Ep Henc.
    apply (sim_writes (sim_print_summary repr_str upper encodable (VDict r1))
             (blocked_summary_permissive r1 H1 Es Ei Ep) Henc).
Qed.

End Summary.

(** ** The entry point *)









Section EntryPoint.

Variables repr_str upper : str -> str.
Variable encodable : str -> bool.
Variable safe_load : str -> result value.








Lemma main_not_found (argv : list str) (read_file : str -> result str)
  (stdin text : str) (recommendation : value) :
  read_input argv read_file stdin = Ok text ->
  parse_commit_recommendation safe_load text = Ok recommendation ->
  truthy recommendation = false ->
  run repr_str upper encodable safe_load argv read_file stdin =
  (Console [] [not_found_line], 1%Z).
Proof.
  intros Hr Hp Ht. unfold run, main.
  rewrite Hr, iobind_lift_ok, Hp, iobind_lift_ok, Ht. reflexivity.
Qed.



(** C10: when the region the search selects holds only white space, or
    nothing, and the loader returns [None] on the empty document, the
    parser returns [None] as it does without a block, and the entry
    point writes the not-found line and exits with status 1. *)
Theorem empty_block_not_found (argv : list str)
  (read_file : str -> result str) (stdin text pre inner post : str) :
  safe_load [] = Ok VNone ->
  read_input argv read_file stdin = Ok text ->
  first_region text pre inner post ->
  all_space inner ->
  parse_commit_recommendation safe_load text = Ok VNone /\
  run repr_str upper encodable safe_load argv read_file stdin =
  (Console [] [not_found_line], 1%Z).
Proof.
  intros Hload Hr Hreg Hsp.
  assert (Hp : parse_commit_recommendation safe_load text = Ok VNone).
  { rewrite (parse_first_region safe_load Hreg), (strip_all_space Hsp).
    exact Hload. }
  split; [exact Hp|].
  apply (main_not_found argv read_file stdin Hr Hp eq_refl).
Qed.

End EntryPoint.

(** ** The properties on sample inputs *)

Example format_feat_api :
  format_commit_message quoted_repr
    (VDict [(lit "type", VStr (lit "feat")); (lit "scope", VStr (lit "api"));
            (lit "subject", VStr (lit "add login"))]) =
  Ok (lit "feat(api): add login").
Proof. reflexivity. Qed.

Example format_fix_body_closes :
  format_commit_message quoted_repr
    (VDict [(lit "type", VStr (lit "fix"));
            (lit "subject", VStr (lit "null check"));
            (lit "body", VStr (lit "Fixes crash."));
            (lit "closes", VStr (lit "Closes #42"))]) =
  Ok (lit "fix: null check" ++ [nl; nl] ++ lit "Fixes crash." ++ [nl; nl]
      ++ lit "Closes #42").
Proof. reflexivity. Qed.

Example blocked_end_to_end :
  run quoted_repr ascii_upper utf8_encodable blocked_loader script_name no_file blocked_input =
  (Console (blocked_summary quoted_repr ascii_upper (lit "failed")
              (VInt 2) (VInt 0)) [], 0%Z).
Proof. vm_compute. reflexivity. Qed.

Lemma generate_git_commands_not_safe_witness :
  let r := entries_of (recommendation_of "blocked" [sample_commit]) in
  lookup (lit "status") r = Some (VStr (lit "blocked")) /\
  VStr (lit "blocked") <> VStr (lit "safe") /\
  generate_git_commands quoted_repr (VDict r) = Ok [].
Proof.
  intros r.
  assert (H1 : lookup (lit "status") r = Some (VStr (lit "blocked")))
    by reflexivity.
  assert (H2 : VStr (lit "blocked") <> VStr (lit "safe"))
    by (vm_compute; discriminate).
  split; [exact H1 | split; [exact H2|]].
  exact (@generate_git_commands_not_safe quoted_repr r _ H1 H2).
Defined.

Lemma format_commit_message_layout_witness :
  format_commit_message quoted_repr sample_commit =
  Ok (lit "feat(api): add " ++ [dq] ++ lit "login" ++ [dq] ++ [nl; nl]
      ++ lit "Adds the login route." ++ [nl; nl] ++ lit "Closes #7").
Proof.
  exact (proj1 (@format_commit_message_layout quoted_repr
                  (entries_of sample_commit)
                  _ _ (Some (lit "  Adds the login route." ++ [nl]))
                  (Some (lit "Closes #7"))
                  eq_refl eq_refl eq_refl eq_refl)).
Defined.


Lemma generate_git_commands_one_commit_witness :
  generate_git_commands quoted_repr
    (recommendation_of "safe" [two_file_commit]) =
  Ok [lit "git add " ++ [dq] ++ lit "a.py" ++ [dq] ++ lit " "
        ++ [dq] ++ lit "b.py" ++ [dq];
      lit "git commit -m " ++ [dq] ++ lit "fix: say " ++ [bslash; dq]
        ++ lit "hi" ++ [bslash; dq] ++ [dq];
      []].
Proof.
  exact (@generate_git_commands_one_commit quoted_repr
           (entries_of (recommendation_of "safe" [two_file_commit]))
           (entries_of two_file_commit) _
           eq_refl eq_refl eq_refl eq_refl).
Defined.

Lemma staging_paths_verbatim_witness :
  generate_git_commands quoted_repr (recommendation_of "safe" [sample_commit]) =
  Ok [lit "git add " ++ [dq] ++ lit "src/my app.py" ++ [dq] ++ lit " "
        ++ [dq] ++ lit "odd" ++ [dq] ++ lit "name.py" ++ [dq];
      lit "git commit -m " ++ [dq] ++ lit "feat(api): add " ++ [bslash; dq]
        ++ lit "login" ++ [bslash; dq] ++ [nl; nl]
        ++ lit "Adds the login route." ++ [nl; nl] ++ lit "Closes #7" ++ [dq];
      []].
Proof.
  refine (@staging_paths_verbatim quoted_repr
            (entries_of (recommendation_of "safe" [sample_commit]))
            [(entries_of sample_commit,
              [lit "src/my app.py"; lit "odd" ++ [dq] ++ lit "name.py"],
              lit "feat(api): add " ++ [dq] ++ lit "login" ++ [dq] ++ [nl; nl]
              ++ lit "Adds the login route." ++ [nl; nl] ++ lit "Closes #7")]
            eq_refl eq_refl _).
  constructor; [split; reflexivity | constructor].
Defined.

Lemma extraction_first_region_witness :
  first_region blocked_input (lit "noise ")
    ([nl] ++ blocked_document ++ [nl]) (lit " more noise") /\
  parse_commit_recommendation blocked_loader blocked_input =
  Ok (recommendation_of "blocked" []).
Proof.
  assert (H : first_region blocked_input (lit "noise ")
                ([nl] ++ blocked_document ++ [nl]) (lit " more noise")).
  { eapply first_region_found; vm_compute; reflexivity. }
  split; [exact H|].
  destruct (proj1 (@extraction_first_region blocked_loader blocked_input)
              _ _ _ H) as [_ [E _]].
  rewrite E. vm_compute. reflexivity.
Defined.

Lemma print_summary_blocked_witness :
  let r1 := entries_of (recommendation_of "blocked" [sample_commit]) in
  let r2 := entries_of (recommendation_of "blocked" [two_file_commit]) in
  print_summary quoted_repr ascii_upper utf8_encodable (VDict r1) (Console [] []) =
  print_summary quoted_repr ascii_upper utf8_encodable (VDict r2) (Console [] []) /\
  print_summary quoted_repr ascii_upper utf8_encodable (VDict r1) (Console [] []) =
  (Console (blocked_summary quoted_repr ascii_upper (lit "failed")
              (VInt 2) (VInt 1)) [], Ok tt).
Proof.
  intros r1 r2.
  destruct (@print_summary_blocked quoted_repr ascii_upper utf8_encodable r1 r2
              (Console [] []) eq_refl eq_refl eq_refl eq_refl eq_refl)
    as [Hsame Hout].
  split; [exact Hsame|].
  exact (Hout (lit "failed") (VInt 2) (VInt 1) eq_refl eq_refl eq_refl
           eq_refl).
Defined.



Lemma empty_block_not_found_witness :
  blocked_loader [] = Ok VNone /\
  read_input script_name no_file blank_input = Ok blank_input /\
  first_region blank_input (lit "before ") (lit "  " ++ [nl]) (lit " after") /\
  all_space (lit "  " ++ [nl]) /\
  parse_commit_recommendation blocked_loader blank_input = Ok VNone /\
  run quoted_repr ascii_upper utf8_encodable blocked_loader script_name no_file blank_input =
  (Console [] [not_found_line], 1%Z).
Proof.
  assert (H : first_region blank_input (lit "before ") (lit "  " ++ [nl])
                (lit " after")).
  { eapply first_region_found; vm_compute; reflexivity. }
  split; [reflexivity | split; [reflexivity | split; [exact H|]]].
  split; [reflexivity|].
  exact (@empty_block_not_found quoted_repr ascii_upper utf8_encodable
           blocked_loader
           script_name no_file blank_input blank_input _ _ _
           eq_refl eq_refl H eq_refl).
Defined.

(** * Further properties of the script *)

(** ** Printing *)

Section Printing.

Variables repr_str upper : str -> str.
Variable encodable : str -> bool.


Lemma outputs_print_summary (recommendation : value) :
  outputs (print_summary repr_str upper encodable recommendation).
Proof.
  unfold print_summary. repeat outputs_step.
Qed.


(** X1: [print_summary] only adds lines to standard output: it never
    writes to the diagnostic stream and never takes back what was
    printed, and the lines it adds and the way it ends do not depend on
    what was printed before, also when it ends with an exception (that
    of a line standard output cannot encode included). *)
Theorem print_summary_appends (recommendation : value) :
  exists lines r,
    forall c,
      print_summary repr_str upper encodable recommendation c =
      (Console (stdout c ++ lines) (stderr c), r).
Proof. exact (outputs_print_summary recommendation). Qed.



End Printing.

(** ** The summary as a whole *)

Section SummaryLines.

Variables repr_str upper : str -> str.
Variable encodable : str -> bool.





(** X5: a summary stops at the first field it cannot read: when
    [security_scan] is missing, the three lines of the title and the
    status line are printed, standard output being able to encode them,
    and the call ends with [KeyError]. *)
Theorem print_summary_missing_scan (e : list (str * value)) (status : str) :
  lookup (lit "status") e = Some (VStr status) ->
  lookup (lit "security_scan") e = None ->
  forallb encodable
    [banner; lit "COMMIT RECOMMENDATION SUMMARY"; banner;
     lit "Status: " ++ upper status] = true ->
  writes (print_summary repr_str upper encodable (VDict e))
    [banner; lit "COMMIT RECOMMENDATION SUMMARY"; banner;
     lit "Status: " ++ upper status]
    (Raise (KeyError (lit "security_scan"))).
Proof.
  intros Hst Hscan Henc. split_encodable Henc. unfold print_summary.
  do 3 print_line.
  eapply writes_lift_bind; [apply getitem_lookup, Hst|].
  eapply writes_lift_bind; [reflexivity|].
  print_line.
  apply writes_lift_raise. unfold getitem. rewrite Hscan. reflexivity.
Qed.

End SummaryLines.

(** ** The entry point as a whole *)

Section EntryPointLines.

Variables repr_str upper : str -> str.
Variable encodable : str -> bool.
Variable safe_load : str -> result value.

Lemma run_writes (argv : list str) (read_file : str -> result str)
  (stdin : str) (lines : list str) (r : result unit) :
  writes (main repr_str upper encodable safe_load argv read_file stdin) lines r ->
  run repr_str upper encodable safe_load argv read_file stdin =
  (Console lines [], exit_status r).
Proof. intros H. unfold run. rewrite H. reflexivity. Qed.

Lemma lookup_truthy (k : str) (e : list (str * value)) (v : value) :
  lookup k e = Some v -> truthy (VDict e) = true.
Proof. destruct e; [discriminate | reflexivity]. Qed.

(** X6: for a status other than ['safe'] the entry point prints the
    summary and nothing after it (no command section, no command) and
    exits with status 0. *)
Theorem main_not_safe_no_commands (argv : list str)
  (read_file : str -> result str) (stdin text : str)
  (e : list (str * value)) (status : value) (summary : list str) :
  read_input argv read_file stdin = Ok text ->
  parse_commit_recommendation safe_load text = Ok (VDict e) ->
  lookup (lit "status") e = Some status ->
  status <> VStr (lit "safe") ->
  print_summary repr_str upper encodable (VDict e) (Console [] []) =
    (Console summary [], Ok tt) ->
  run repr_str upper encodable safe_load argv read_file stdin =
  (Console summary [], 0%Z).
Proof.
  intros Hr Hp Hst Hne Hsum.
  apply (outputs_writes (outputs_print_summary repr_str upper encodable _)) in Hsum.
  apply (run_writes (r := Ok tt)). unfold main.
  eapply writes_lift_bind; [exact Hr|].
  eapply writes_lift_bind; [exact Hp|].
  rewrite (lookup_truthy _ _ Hst). cbn [negb].
  apply writes_ret_bind.
  eapply writes_eq; [|apply app_nil_r].
  eapply writes_bind; [exact Hsum|].
  eapply writes_lift_bind; [apply getitem_lookup, Hst|].
  destruct (eq_lit status (lit "safe")) eqn:E; [|apply writes_ret].
  apply eq_lit_true in E. contradiction.
Qed.

(** X7: for the status ['safe'], when standard output can encode the
    lines of the command section, the entry point prints the summary,
    then that section: its three title lines, the generated commands in
    order without the empty separators, an empty line and the two
    warnings; it exits with status 0. *)
Theorem main_safe_commands (argv : list str)
  (read_file : str -> result str) (stdin text : str)
  (e : list (str * value)) (summary commands : list str) :
  read_input argv read_file stdin = Ok text ->
  parse_commit_recommendation safe_load text = Ok (VDict e) ->
  lookup (lit "status") e = Some (VStr (lit "safe")) ->
  print_summary repr_str upper encodable (VDict e) (Console [] []) =
    (Console summary [], Ok tt) ->
  generate_git_commands repr_str (VDict e) = Ok commands ->
  forallb encodable (commands_section commands) = true ->
  run repr_str upper encodable safe_load argv read_file stdin =
  (Console (summary ++ commands_section commands) [], 0%Z).
Proof.
  intros Hr Hp Hst Hsum Hgen Henc.
  unfold commands_section in Henc. cbn [app forallb] in Henc.
  do 3 (apply andb_prop in Henc; let E := fresh "E" in
        destruct Henc as [E Henc]).
  rewrite forallb_app in Henc. apply andb_prop in Henc.
  destruct Henc as [Hcmds Henc]. split_encodable Henc.
  apply (outputs_writes (outputs_print_summary repr_str upper encodable _)) in Hsum.
  apply (run_writes (r := Ok tt)). unfold main.
  eapply writes_lift_bind; [exact Hr|].
  eapply writes_lift_bind; [exact Hp|].
  rewrite (lookup_truthy _ _ Hst). cbn [negb].
  apply writes_ret_bind.
  eapply writes_bind; [exact Hsum|].
  eapply writes_lift_bind; [apply getitem_lookup, Hst|].
  replace (eq_lit (VStr (lit "safe")) (lit "safe")) with true by reflexivity.
  unfold commands_section. cbn [app].
  do 3 print_line.
  eapply writes_lift_bind; [exact Hgen|].
  eapply writes_bind; [apply writes_commands, Hcmds|].
  cbn [app]. do 2 print_line. apply writes_print_enc. assumption.
Qed.

(** X8: a failure of the command generator comes after the summary and
    the three title lines of the command section are printed (standard
    output being able to encode them): the run ends there, with the
    status of the exception and no command printed. *)
Theorem main_safe_generation_fails (argv : list str)
  (read_file : str -> result str) (stdin text : str)
  (e : list (str * value)) (summary : list str) (err : exn) :
  read_input argv read_file stdin = Ok text ->
  parse_commit_recommendation safe_load text = Ok (VDict e) ->
  lookup (lit "status") e = Some (VStr (lit "safe")) ->
  print_summary repr_str upper encodable (VDict e) (Console [] []) =
    (Console summary [], Ok tt) ->
  generate_git_commands repr_str (VDict e) = Raise err ->
  forallb encodable [banner; lit "GIT COMMANDS TO EXECUTE"; banner] = true ->
  run repr_str upper encodable safe_load argv read_file stdin =
  (Console (summary ++ [banner; lit "GIT COMMANDS TO EXECUTE"; banner]) [],
   exit_status (Raise err)).
Proof.
  intros Hr Hp Hst Hsum Hgen Henc. split_encodable Henc.
  apply (outputs_writes (outputs_print_summary repr_str upper encodable _)) in Hsum.
  apply run_writes. unfold main.
  eapply writes_lift_bind; [exact Hr|].
  eapply writes_lift_bind; [exact Hp|].
  rewrite (lookup_truthy _ _ Hst). cbn [negb].
  apply writes_ret_bind.
  eapply writes_bind; [exact Hsum|].
  eapply writes_lift_bind; [apply getitem_lookup, Hst|].
  replace (eq_lit (VStr (lit "safe")) (lit "safe")) with true by reflexivity.
  do 3 print_line.
  apply writes_lift_raise, Hgen.
Qed.

(** X9: every decoded value that is false in a condition ([None], an
    empty mapping, an empty list, an empty string, zero, [False]) is
    reported as a missing block: the not-found line on the diagnostic
    stream, nothing on standard output, status 1. *)
Theorem falsy_block_not_found (argv : list str)
  (read_file : str -> result str) (stdin text pre inner post : str)
  (v : value) :
  read_input argv read_file stdin = Ok text ->
  first_region text pre inner post ->
  safe_load (strip inner) = Ok v ->
  truthy v = false ->
  run repr_str upper encodable safe_load argv read_file stdin =
  (Console [] [not_found_line], 1%Z).
Proof.
  intros Hr Hreg Hload Hf.
  apply (main_not_found repr_str upper encodable safe_load argv read_file
           stdin Hr
           (recommendation := v)); [|exact Hf].
  rewrite (parse_first_region safe_load Hreg). exact Hload.
Qed.

(** X10: a block that decodes to something true that is not a mapping
    (a string, a number, a list) is not rejected: the three title lines
    of the summary are printed (standard output being able to encode
    them), reading the status raises [TypeError] and the run ends with
    status 1. *)
Theorem non_mapping_block_fails (argv : list str)
  (read_file : str -> result str) (stdin text : str) (v : value) :
  read_input argv read_file stdin = Ok text ->
  parse_commit_recommendation safe_load text = Ok v ->
  truthy v = true ->
  (forall e, v <> VDict e) ->
  forallb encodable [banner; lit "COMMIT RECOMMENDATION SUMMARY"; banner]
    = true ->
  run repr_str upper encodable safe_load argv read_file stdin =
  (Console [banner; lit "COMMIT RECOMMENDATION SUMMARY"; banner] [], 1%Z).
Proof.
  intros Hr Hp Ht Hnd Henc. split_encodable Henc.
  apply (run_writes (r := Raise TypeError)). unfold main.
  eapply writes_lift_bind; [exact Hr|].
  eapply writes_lift_bind; [exact Hp|].
  rewrite Ht. cbn [negb].
  apply writes_ret_bind.
  eapply writes_bind_raise. unfold print_summary.
  do 3 print_line.
  apply writes_lift_raise.
  destruct v; try reflexivity. exfalso. eapply Hnd. reflexivity.
Qed.

(** X11: an exception of the loader on the text of the block is not
    caught: the parser ends with it, nothing is printed by the script on
    either stream, and the exit status is that of the exception. *)
Theorem loader_error_propagates (argv : list str)
  (read_file : str -> result str) (stdin text pre inner post : str)
  (err : exn) :
  read_input argv read_file stdin = Ok text ->
  first_region text pre inner post ->
  safe_load (strip inner) = Raise err ->
  parse_commit_recommendation safe_load text = Raise err /\
  run repr_str upper encodable safe_load argv read_file stdin =
  (Console [] [], exit_status (Raise err)).
Proof.
  intros Hr Hreg Hload.
  assert (Hp : parse_commit_recommendation safe_load text = Raise err).
  { rewrite (parse_first_region safe_load Hreg). exact Hload. }
  split; [exact Hp|].
  apply run_writes. unfold main.
  eapply writes_lift_bind; [exact Hr|].
  apply writes_lift_raise, Hp.
Qed.

(** X12: with a path on the command line the text is what is read from
    that file: standard input and any further argument play no part,
    and a failure to read ends the run with the status of the exception
    before anything is printed. *)
Theorem main_file_argument (prog path : str) (more : list str)
  (read_file : str -> result str) (stdin : str) :
  (forall text,
      read_file path = Ok text ->
      run repr_str upper encodable safe_load (prog :: path :: more) read_file stdin =
      run repr_str upper encodable safe_load [prog] read_file text) /\
  (forall err,
      read_file path = Raise err ->
      run repr_str upper encodable safe_load (prog :: path :: more) read_file stdin =
      (Console [] [], exit_status (Raise err))).
Proof.
  split.
  - intros text H. unfold run, main. cbn [read_input]. rewrite H. reflexivity.
  - intros err H. apply run_writes. unfold main.
    apply writes_lift_raise. exact H.
Qed.

End EntryPointLines.

(** ** More on extraction *)

Lemma leftmost_not_before (p s pre rest : str) :
  p <> [] -> leftmost p s pre rest -> ~ occurs p pre.
Proof.
  intros Hp [E Hmin] [a [b Hpre]].
  specialize (Hmin a (b ++ p ++ rest)).
  rewrite E, Hpre, <- !app_assoc in Hmin. specialize (Hmin eq_refl).
  rewrite !length_app in Hmin. destruct p; [contradiction|].
  simpl in Hmin. lia.
Qed.

Lemma head_unique_cons (p : str) :
  head_unique p = true ->
  exists x t, p = x :: t /\ forall c, In c t -> c <> x.
Proof.
  destruct p as [|x t]; [discriminate|]. simpl. intros H.
  exists x, t. split; [reflexivity|]. intros c Hc.
  rewrite forallb_forall in H. specialize (H c Hc).
  apply negb_true_iff, N.eqb_neq in H. exact H.
Qed.

(** An occurrence of [p] cannot start before another one and run into
    it, when the first character of [p] is nowhere else in [p]. *)
Lemma leftmost_plain (p pre rest : str) :
  head_unique p = true ->
  ~ occurs p pre ->
  leftmost p (pre ++ p ++ rest) pre rest.
Proof.
  intros Hu Hno. split; [reflexivity|]. intros a b E.
  destruct (head_unique_cons p Hu) as [x [t [Hp Ht]]].
  apply app_eq_app in E. destruct E as [l [[Hpre E]|[-> _]]].
  - destruct l as [|y l]; [rewrite Hpre, app_nil_r; lia|]. exfalso.
    apply app_eq_app in E.
    destruct E as [m [[Hpl Hm]|[Hl _]]].
    + destruct m as [|z m].
      * rewrite app_nil_r in Hpl. apply Hno. exists a, [].
        rewrite app_nil_r, Hpl. exact Hpre.
      * rewrite Hp in Hm. simpl in Hm. injection Hm as Hz _.
        rewrite Hp in Hpl. simpl in Hpl. injection Hpl as _ Htl.
        apply (Ht z); [|symmetry; exact Hz].
        rewrite Htl. apply in_or_app. right. left. reflexivity.
    + apply Hno. exists a, m. rewrite Hpre, Hl. reflexivity.
  - rewrite length_app. lia.
Qed.

Lemma tags_head_unique :
  head_unique open_tag = true /\ head_unique close_tag = true.
Proof. split; reflexivity. Qed.

Lemma close_tag_not_nil : close_tag <> [].
Proof. discriminate. Qed.

(** X13: the text taken from the block never holds a closing tag: the
    group ends at the first one after the opening tag. *)
Theorem group_without_close_tag (text group : str) :
  re_search text = Some group -> ~ occurs close_tag group.
Proof.
  intros H. apply re_search_Some in H.
  destruct H as [pre [post [rest [_ Hc]]]].
  apply (leftmost_not_before close_tag_not_nil Hc).
Qed.

(** X14: when no opening tag stands in what precedes a block and no
    closing tag in its inner text, that block is the one decoded,
    whatever follows it (further blocks included) and whether or not the
    inner text holds an opening tag. *)
Theorem parse_plain_region (safe_load : str -> result value)
  (pre inner post : str) :
  ~ occurs open_tag pre ->
  ~ occurs close_tag inner ->
  re_search (pre ++ open_tag ++ inner ++ close_tag ++ post) = Some inner /\
  parse_commit_recommendation safe_load
    (pre ++ open_tag ++ inner ++ close_tag ++ post) =
  safe_load (strip inner).
Proof.
  intros Ho Hc.
  assert (H : first_region (pre ++ open_tag ++ inner ++ close_tag ++ post)
                pre inner post).
  { exists (inner ++ close_tag ++ post). split.
    - apply leftmost_plain; [apply tags_head_unique | exact Ho].
    - apply leftmost_plain; [apply tags_head_unique | exact Hc]. }
  split.
  - apply re_search_Some. exists pre, post. exact H.
  - apply (parse_first_region safe_load H).
Qed.

(** ** More on the commit message *)

Section MessageErrors.

Variable repr_str : str -> str.



End MessageErrors.

(** ** More on command generation *)

(** X17: in an escaped message every double quote has a backslash just
    before it. *)
Theorem escaped_quotes_guarded (message before after : str) :
  replace_char dq [bslash; dq] message = before ++ dq :: after ->
  exists before', before = before' ++ [bslash].
Proof.
  revert before. induction message as [|c m IH]; intros before E.
  - destruct before; discriminate.
  - simpl in E. destruct (N.eqb_spec c dq) as [->|Hc].
    + simpl in E. destruct before as [|x [|y before]].
      * discriminate.
      * exists []. injection E as Hx _. subst x. reflexivity.
      * injection E as Hx Hy E. subst x y. destruct (IH _ E) as [b' ->].
        exists (bslash :: dq :: b'). reflexivity.
    + simpl in E. destruct before as [|x before].
      * injection E as E _. congruence.
      * injection E as Hx E. subst x. destruct (IH _ E) as [b' ->].
        exists (c :: b'). reflexivity.
Qed.

Lemma escaped_head (m : str) (q : char) (t : str) :
  replace_char dq [bslash; dq] m = q :: t -> q <> dq.
Proof.
  destruct m as [|c m]; [discriminate|]. simpl.
  destruct (N.eqb_spec c dq) as [->|Hc]; simpl.
  - intros [= <- _]. discriminate.
  - intros [= <- _]. exact Hc.
Qed.

(** X18: escaping loses nothing: turning each backslash-quote pair back
    into a quote gives the message again, so that two messages with the
    same escaped form are the same message. *)
Theorem escaping_undone (message : str) :
  unescape_quotes (replace_char dq [bslash; dq] message) = message /\
  forall other,
    replace_char dq [bslash; dq] other = replace_char dq [bslash; dq] message ->
    other = message.
Proof.
  assert (H : forall m, unescape_quotes (replace_char dq [bslash; dq] m) = m).
  { induction m as [|c m IH]; [reflexivity|].
    cbn [replace_char]. destruct (N.eqb_spec c dq) as [->|Hc].
    - cbn [app unescape_quotes]. rewrite N.eqb_refl, N.eqb_refl.
      cbn [andb]. rewrite IH. reflexivity.
    - cbn [app unescape_quotes].
      destruct (replace_char dq [bslash; dq] m) as [|q t] eqn:E.
      + rewrite <- IH. reflexivity.
      + pose proof (escaped_head m E) as Hq.
        apply N.eqb_neq in Hq. rewrite Hq, andb_false_r, IH. reflexivity. }
  split; [apply H|].
  intros other E. rewrite <- (H other), E. apply H.
Qed.

Lemma flat_map_triples {A B} (f : A -> list B) (l : list A) :
  (forall x, List.length (f x) = 3) ->
  List.length (flat_map f l) = 3 * List.length l.
Proof.
  intros H. induction l as [|x l IH]; [reflexivity|].
  simpl. rewrite length_app, H, IH. lia.
Qed.

Section CommandShape.

Variable repr_str : str -> str.

Lemma commit_commands_shape (commit : value) (cmds : list str) :
  commit_commands repr_str commit = Ok cmds ->
  exists files message,
    cmds = [lit "git add " ++ files;
            lit "git commit -m " ++ [dq] ++ message ++ [dq]; []].
Proof.
  unfold commit_commands.
  destruct (getitem commit (lit "files")) as [fs|]; [|discriminate].
  cbn [rbind]. destruct (iterate fs) as [paths|]; [|discriminate].
  cbn [rbind].
  destruct (format_commit_message repr_str commit) as [m|]; [|discriminate].
  cbn [rbind]. intros [= <-]. eexists; eexists; reflexivity.
Qed.

Lemma commands_loop_shape (commits : list value) (cmds : list str) :
  commands_loop repr_str commits [] = Ok cmds ->
  exists pairs : list (str * str),
    List.length pairs = List.length commits /\
    cmds = flat_map (fun p => [lit "git add " ++ fst p;
                               lit "git commit -m " ++ [dq] ++ snd p ++ [dq];
                               []]) pairs.
Proof.
  revert cmds. induction commits as [|c cs IH]; intros cmds; simpl.
  - intros [= <-]. exists []. split; reflexivity.
  - destruct (commit_commands repr_str c) as [first|] eqn:Ec; [|discriminate].
    cbn [rbind app]. rewrite commands_loop_acc.
    destruct (commands_loop repr_str cs []) as [rest|]; [|discriminate].
    intros [= <-]. destruct (IH rest eq_refl) as [pairs [Hlen ->]].
    destruct (commit_commands_shape _ Ec) as [files [message ->]].
    exists ((files, message) :: pairs). split; [simpl; rewrite Hlen|];
      reflexivity.
Qed.

(** X19: whenever the generator returns for a safe recommendation, its
    result is, for each commit in turn, one [git add] command, one
    [git commit -m] command in double quotes and one empty string: three
    strings for a commit, and no other command. *)
Theorem generate_git_commands_shape (e : list (str * value))
  (cs : value) (commits : list value) (cmds : list str) :
  lookup (lit "status") e = Some (VStr (lit "safe")) ->
  lookup (lit "commits") e = Some cs ->
  iterate cs = Ok commits ->
  generate_git_commands repr_str (VDict e) = Ok cmds ->
  List.length cmds = 3 * List.length commits /\
  exists pairs : list (str * str),
    List.length pairs = List.length commits /\
    cmds = flat_map (fun p => [lit "git add " ++ fst p;
                               lit "git commit -m " ++ [dq] ++ snd p ++ [dq];
                               []]) pairs.
Proof.
  intros Hst Hcs Hit. unfold generate_git_commands.
  rewrite (getitem_lookup _ _ Hst), (getitem_lookup _ _ Hcs).
  cbn [rbind]. replace (eq_lit (VStr (lit "safe")) (lit "safe")) with true
    by reflexivity.
  cbn [negb]. rewrite Hit. cbn [rbind]. intros H.
  destruct (commands_loop_shape _ H) as [pairs [Hlen ->]].
  split; [|exists pairs; split; [exact Hlen | reflexivity]].
  rewrite <- Hlen. apply flat_map_triples. intros p. reflexivity.
Qed.

(** X20: the generator gives all the commands or none: when a commit
    cannot be turned into commands, the exception of the first such
    commit is the result, also when the commits before and after it are
    fine. *)
Theorem generate_git_commands_first_failure (e : list (str * value))
  (good : list value) (bad : value) (rest : list value) (err : exn) :
  lookup (lit "status") e = Some (VStr (lit "safe")) ->
  lookup (lit "commits") e = Some (VList (good ++ bad :: rest)) ->
  Forall (fun c => exists cmds, commit_commands repr_str c = Ok cmds) good ->
  commit_commands repr_str bad = Raise err ->
  generate_git_commands repr_str (VDict e) = Raise err.
Proof.
  intros Hst Hcs Hgood Hbad. rewrite (generate_safe repr_str _ Hst Hcs).
  clear Hst Hcs. generalize (@nil str) as acc.
  induction Hgood as [|c good [cmds Hc] _ IH]; intros acc; simpl.
  - rewrite Hbad. reflexivity.
  - rewrite Hc. cbn [rbind]. apply IH.
Qed.

(** X21: a safe recommendation without [commits] makes the generator
    raise [KeyError]; one whose [commits] is [None] (an empty field in
    the block) makes it raise [TypeError], since [None] cannot be
    iterated. *)
Theorem generate_git_commands_no_commits (e : list (str * value)) :
  lookup (lit "status") e = Some (VStr (lit "safe")) ->
  (lookup (lit "commits") e = None ->
   generate_git_commands repr_str (VDict e) =
   Raise (KeyError (lit "commits"))) /\
  (lookup (lit "commits") e = Some VNone ->
   generate_git_commands repr_str (VDict e) = Raise TypeError).
Proof.
  intros Hst. unfold generate_git_commands.
  rewrite (getitem_lookup _ _ Hst). cbn [rbind].
  replace (eq_lit (VStr (lit "safe")) (lit "safe")) with true by reflexivity.
  cbn [negb]. unfold getitem.
  split; intros ->; reflexivity.
Qed.

(** X22: a [files] field that is one string, not a list of strings, is
    iterated as Python iterates a string: the staging command names each
    of its characters as a path of its own. *)
Theorem commit_commands_string_files (e : list (str * value))
  (path message : str) :
  lookup (lit "files") e = Some (VStr path) ->
  format_commit_message repr_str (VDict e) = Ok message ->
  commit_commands repr_str (VDict e) =
  Ok [lit "git add " ++ join (lit " ") (map (fun c => [dq; c; dq]) path);
      lit "git commit -m " ++ [dq] ++ escape_quotes message ++ [dq];
      []].
Proof.
  intros Hf Hm. unfold commit_commands.
  rewrite (getitem_lookup _ _ Hf). cbn [rbind iterate]. rewrite Hm.
  cbn [rbind]. rewrite replace_char_escape, map_map. reflexivity.
Qed.

End CommandShape.

(** ** The further properties on sample inputs *)

Lemma find_first_None (p s : str) : find_first p s = None -> ~ occurs p s.
Proof.
  induction s as [|c s IH]; simpl.
  - destruct (strip_prefix p []) eqn:Hp; [discriminate|].
    intros _ [a [b E]]. destruct a; [|discriminate].
    simpl in E. apply strip_prefix_Some in E. congruence.
  - destruct (strip_prefix p (c :: s)) eqn:Hp; [discriminate|].
    destruct (find_first p s) as [[pre rest]|]; [discriminate|].
    intros _ [[|x a] [b E]].
    + simpl in E. apply strip_prefix_Some in E. congruence.
    + simpl in E. injection E as _ E. apply (IH eq_refl).
      exists a, b. exact E.
Qed.




Lemma print_summary_missing_scan_witness :
  writes
    (print_summary quoted_repr ascii_upper utf8_encodable
       (VDict [(lit "status", VStr (lit "blocked"))]))
    [banner; lit "COMMIT RECOMMENDATION SUMMARY"; banner;
     lit "Status: BLOCKED"]
    (Raise (KeyError (lit "security_scan"))).
Proof.
  exact (@print_summary_missing_scan quoted_repr ascii_upper utf8_encodable
           [(lit "status", VStr (lit "blocked"))] (lit "blocked")
           eq_refl eq_refl eq_refl).
Defined.

Lemma main_not_safe_no_commands_witness :
  run quoted_repr ascii_upper utf8_encodable sample_loader script_name no_file
    (block_of blocked_document) =
  (Console (blocked_summary quoted_repr ascii_upper (lit "failed")
              (VInt 2) (VInt 0)) [], 0%Z).
Proof.
  refine (@main_not_safe_no_commands quoted_repr ascii_upper utf8_encodable sample_loader
            script_name no_file (block_of blocked_document)
            (block_of blocked_document)
            (entries_of (recommendation_of "blocked" []))
            (VStr (lit "blocked")) _ eq_refl _ eq_refl _ _).
  - vm_compute. reflexivity.
  - vm_compute. discriminate.
  - vm_compute. reflexivity.
Defined.

Lemma main_safe_commands_witness :
  run quoted_repr ascii_upper utf8_encodable sample_loader script_name no_file
    (block_of safe_document) =
  (Console
     (summary_header quoted_repr ascii_upper (lit "safe") (lit "failed")
        (VInt 2) (VInt 1)
      ++ [lit "--- Commit 1 ---"; lit "Type: fix"; lit "Subject: say 'hi'";
          lit "Files (2):"; lit "  - a.py"; lit "  - b.py"; []]
      ++ [banner; lit "GIT COMMANDS TO EXECUTE"; banner;
          lit "git add " ++ [dq] ++ lit "a.py" ++ [dq] ++ lit " "
            ++ [dq] ++ lit "b.py" ++ [dq];
          lit "git commit -m " ++ [dq] ++ lit "fix: say 'hi'" ++ [dq];
          [];
          warning_sign ++ lit "  Review these commands before executing!";
          warning_sign
            ++ lit "  Ensure you have user approval before running."])
     [], 0%Z).
Proof.
  refine (@main_safe_commands quoted_repr ascii_upper utf8_encodable sample_loader
            script_name no_file (block_of safe_document)
            (block_of safe_document) (entries_of safe_recommendation)
            (summary_header quoted_repr ascii_upper (lit "safe")
               (lit "failed") (VInt 2) (VInt 1)
             ++ [lit "--- Commit 1 ---"; lit "Type: fix";
                 lit "Subject: say 'hi'"; lit "Files (2):"; lit "  - a.py";
                 lit "  - b.py"; []])
            [lit "git add " ++ [dq] ++ lit "a.py" ++ [dq] ++ lit " "
               ++ [dq] ++ lit "b.py" ++ [dq];
             lit "git commit -m " ++ [dq] ++ lit "fix: say 'hi'" ++ [dq];
             []]
            eq_refl _ eq_refl _ _ eq_refl).
  - vm_compute. reflexivity.
  - vm_compute. reflexivity.
  - vm_compute. reflexivity.
Defined.

Lemma main_safe_generation_fails_witness :
  run quoted_repr ascii_upper utf8_encodable sample_loader script_name no_file
    (block_of numbered_body_document) =
  (Console
     (summary_header quoted_repr ascii_upper (lit "safe") (lit "failed")
        (VInt 2) (VInt 1)
      ++ [lit "--- Commit 2 ---"; lit "Type: docs"; lit "Subject: notes";
          lit "Files (1):"; lit "  - notes.md"; []]
      ++ [banner; lit "GIT COMMANDS TO EXECUTE"; banner])
     [], 1%Z).
Proof.
  refine (@main_safe_generation_fails quoted_repr ascii_upper utf8_encodable sample_loader
            script_name no_file (block_of numbered_body_document)
            (block_of numbered_body_document)
            (entries_of (recommendation_of "safe" [numbered_body_commit]))
            (summary_header quoted_repr ascii_upper (lit "safe")
               (lit "failed") (VInt 2) (VInt 1)
             ++ [lit "--- Commit 2 ---"; lit "Type: docs";
                 lit "Subject: notes"; lit "Files (1):"; lit "  - notes.md";
                 []])
            AttributeError eq_refl _ eq_refl _ _ eq_refl).
  - vm_compute. reflexivity.
  - vm_compute. reflexivity.
  - vm_compute. reflexivity.
Defined.

Lemma falsy_block_not_found_witness :
  run quoted_repr ascii_upper utf8_encodable sample_loader script_name no_file
    (block_of (lit "{}")) =
  (Console [] [not_found_line], 1%Z).
Proof.
  refine (@falsy_block_not_found quoted_repr ascii_upper utf8_encodable sample_loader
            script_name no_file (block_of (lit "{}")) (block_of (lit "{}"))
            (lit "noise ") ([nl] ++ lit "{}" ++ [nl]) (lit " more noise")
            (VDict []) eq_refl _ eq_refl eq_refl).
  eapply first_region_found; vm_compute; reflexivity.
Defined.

Lemma non_mapping_block_fails_witness :
  run quoted_repr ascii_upper utf8_encodable sample_loader script_name no_file
    (block_of (lit "hello")) =
  (Console [banner; lit "COMMIT RECOMMENDATION SUMMARY"; banner] [], 1%Z).
Proof.
  refine (@non_mapping_block_fails quoted_repr ascii_upper utf8_encodable sample_loader
            script_name no_file (block_of (lit "hello"))
            (block_of (lit "hello")) (VStr (lit "hello"))
            eq_refl _ eq_refl _ eq_refl).
  - vm_compute. reflexivity.
  - intros e. discriminate.
Defined.

Lemma loader_error_propagates_witness :
  run quoted_repr ascii_upper utf8_encodable sample_loader script_name no_file
    (block_of (lit "{")) =
  (Console [] [], 1%Z).
Proof.
  refine (proj2 (@loader_error_propagates quoted_repr ascii_upper utf8_encodable
                   sample_loader script_name no_file (block_of (lit "{"))
                   (block_of (lit "{"))
                   (lit "noise ") ([nl] ++ lit "{" ++ [nl])
                   (lit " more noise") LoaderError eq_refl _ eq_refl)).
  eapply first_region_found; vm_compute; reflexivity.
Defined.

Lemma main_file_argument_witness :
  run quoted_repr ascii_upper utf8_encodable sample_loader
    [lit "parse_commit.py"; lit "out.txt"; lit "extra"]
    (one_file (lit "out.txt") (block_of blocked_document))
    (block_of safe_document) =
  run quoted_repr ascii_upper utf8_encodable sample_loader script_name
    (one_file (lit "out.txt") (block_of blocked_document))
    (block_of blocked_document).
Proof.
  exact (proj1 (@main_file_argument quoted_repr ascii_upper utf8_encodable sample_loader
                  (lit "parse_commit.py") (lit "out.txt") [lit "extra"]
                  (one_file (lit "out.txt") (block_of blocked_document))
                  (block_of safe_document))
           (block_of blocked_document) eq_refl).
Defined.

Lemma group_without_close_tag_witness :
  ~ occurs close_tag ([nl] ++ blocked_document ++ [nl]).
Proof.
  refine (@group_without_close_tag (block_of blocked_document) _ _).
  vm_compute. reflexivity.
Defined.

Lemma parse_plain_region_witness :
  parse_commit_recommendation sample_loader
    (lit "see " ++ open_tag ++ lit " {} " ++ close_tag ++ lit " and "
     ++ block_of safe_document) =
  Ok (VDict []).
Proof.
  refine (proj2 (@parse_plain_region sample_loader (lit "see ") (lit " {} ")
                   (lit " and " ++ block_of safe_document) _ _)).
  - apply find_first_None. vm_compute. reflexivity.
  - apply find_first_None. vm_compute. reflexivity.
Defined.



Lemma escaped_quotes_guarded_witness :
  exists before', lit "say " ++ [bslash] = before' ++ [bslash].
Proof.
  refine (@escaped_quotes_guarded (lit "say " ++ [dq] ++ lit "hi" ++ [dq])
            (lit "say " ++ [bslash]) (lit "hi" ++ [bslash; dq]) _).
  reflexivity.
Defined.

Lemma generate_git_commands_shape_witness :
  exists cmds,
    generate_git_commands quoted_repr
      (recommendation_of "safe" [sample_commit; two_file_commit]) = Ok cmds /\
    List.length cmds = 3 * 2.
Proof.
  destruct (generate_git_commands quoted_repr
              (recommendation_of "safe" [sample_commit; two_file_commit]))
    as [cmds|err] eqn:H; [|vm_compute in H; discriminate].
  exists cmds. split; [reflexivity|].
  exact (proj1 (@generate_git_commands_shape quoted_repr
                  (entries_of
                     (recommendation_of "safe"
                        [sample_commit; two_file_commit]))
                  _ [sample_commit; two_file_commit] cmds
                  eq_refl eq_refl eq_refl H)).
Defined.

Lemma generate_git_commands_first_failure_witness :
  generate_git_commands quoted_repr
    (recommendation_of "safe"
       [two_file_commit; numbered_body_commit; sample_commit]) =
  Raise AttributeError.
Proof.
  refine (@generate_git_commands_first_failure quoted_repr
            (entries_of
               (recommendation_of "safe"
                  [two_file_commit; numbered_body_commit; sample_commit]))
            [two_file_commit] numbered_body_commit [sample_commit]
            AttributeError eq_refl eq_refl _ eq_refl).
  constructor; [eexists; vm_compute; reflexivity | constructor].
Defined.

Lemma generate_git_commands_no_commits_witness :
  generate_git_commands quoted_repr
    (VDict [(lit "status", VStr (lit "safe")); (lit "commits", VNone)]) =
  Raise TypeError.
Proof.
  exact (proj2 (@generate_git_commands_no_commits quoted_repr
                  [(lit "status", VStr (lit "safe")); (lit "commits", VNone)]
                  eq_refl) eq_refl).
Defined.

Lemma commit_commands_string_files_witness :
  commit_commands quoted_repr
    (VDict [(lit "type", VStr (lit "fix")); (lit "subject", VStr (lit "typo"));
            (lit "files", VStr (lit "a.py"))]) =
  Ok [lit "git add " ++ [dq] ++ lit "a" ++ [dq] ++ lit " " ++ [dq] ++ lit "."
        ++ [dq] ++ lit " " ++ [dq] ++ lit "p" ++ [dq] ++ lit " " ++ [dq]
        ++ lit "y" ++ [dq];
      lit "git commit -m " ++ [dq] ++ lit "fix: typo" ++ [dq];
      []].
Proof.
  exact (@commit_commands_string_files quoted_repr
           [(lit "type", VStr (lit "fix")); (lit "subject", VStr (lit "typo"));
            (lit "files", VStr (lit "a.py"))]
           (lit "a.py") (lit "fix: typo") eq_refl eq_refl).
Defined.

(** ** Lines that cannot be encoded, and bytes *)

Lemma writes_unique {A} (m : io A) (l l' : list str) (r r' : result A) :
  writes m l r -> writes m l' r' -> l = l' /\ r = r'.
Proof.
  intros H H'. specialize (H (Console [] [])). rewrite H' in H.
  cbn [stdout stderr app] in H. injection H as E1 E2. split; congruence.
Qed.

Section Follows.

Variable encodable : str -> bool.

Lemma follows_quiet {A} (m : io A) (r0 : result A) :
  writes m [] r0 -> follows encodable m m.
Proof.
  intros W lines r W'. destruct (writes_unique W W') as [<- <-]. split.
  - intros _. exact W.
  - intros before bad after E. destruct before; discriminate.
Qed.

Lemma follows_lift {A} (r : result A) : follows encodable (lift r) (lift r).
Proof. apply (follows_quiet (writes_lift r)). Qed.

Lemma follows_ret {A} (a : A) : follows encodable (ioret a) (ioret a).
Proof. apply (follows_quiet (writes_ret a)). Qed.

Lemma follows_print (s : str) :
  follows encodable (print encodable s) (print permissive s).
Proof.
  intros lines r W. destruct (writes_unique (writes_print s) W) as [<- <-].
  split.
  - cbn [forallb]. rewrite andb_true_r. apply writes_print_enc.
  - intros before bad after E _ Hbad.
    destruct before as [|x before].
    + injection E as -> _. apply writes_print_fail, Hbad.
    + injection E as _ E. destruct before; discriminate.
Qed.

Lemma follows_bind {A B} (m m0 : io A) (k k0 : A -> io B) :
  outputs m0 -> (forall a, outputs (k0 a)) ->
  follows encodable m m0 ->
  (forall a, follows encodable (k a) (k0 a)) ->
  follows encodable (iobind m k) (iobind m0 k0).
Proof.
  intros [l1 [r1 W1]] Ok0 Fm Fk lines r W.
  destruct (Fm l1 r1 W1) as [Fm1 Fm2].
  destruct r1 as [a|e].
  - destruct (Ok0 a) as [l2 [r2 W2]].
    destruct (writes_unique (writes_bind _ W1 W2) W) as [<- <-].
    destruct (Fk a l2 r2 W2) as [Fk1 Fk2]. split.
    + rewrite forallb_app, andb_true_iff. intros [H1 H2].
      apply (writes_bind _ (Fm1 H1) (Fk1 H2)).
    + intros before bad after E Hb Hbad. apply app_eq_app in E.
      destruct E as [x [[E1 E2]|[E1 E2]]].
      * destruct x as [|y x].
        -- rewrite app_nil_r in E1. subst l1. cbn [app] in E2.
           rewrite <- (app_nil_r before).
           apply (writes_bind _ (Fm1 Hb)).
           apply (Fk2 [] bad after (eq_sym E2) eq_refl Hbad).
        -- cbn [app] in E2. injection E2 as <- _.
           apply writes_bind_raise. apply (Fm2 before bad x E1 Hb Hbad).
      * subst before. rewrite forallb_app, andb_true_iff in Hb.
        destruct Hb as [H1 Hx].
        apply (writes_bind _ (Fm1 H1)). apply (Fk2 x bad after E2 Hx Hbad).
  - destruct (writes_unique (writes_bind_raise k0 W1) W) as [<- <-]. split.
    + intros H. apply writes_bind_raise, Fm1, H.
    + intros before bad after E Hb Hbad.
      apply writes_bind_raise. apply (Fm2 before bad after E Hb Hbad).
Qed.

Lemma follows_for_each {A} (xs : list A) (body body0 : A -> io unit) :
  (forall x, outputs (body0 x)) ->
  (forall x, follows encodable (body x) (body0 x)) ->
  follows encodable (for_each xs body) (for_each xs body0).
Proof.
  intros Ho H. induction xs as [|x xs IH]; simpl.
  - apply follows_ret.
  - apply follows_bind; [apply Ho | | apply H | intros _; exact IH].
    intros _. apply outputs_for_each, Ho.
Qed.

End Follows.

Ltac follows_step :=
  first [ apply follows_print | apply follows_lift | apply follows_ret
        | apply follows_for_each;
            [intros ?; repeat outputs_step | intros ?]
        | apply follows_bind;
            [repeat outputs_step | intros ?; repeat outputs_step | | intros ?]
        | match goal with
          | |- follows _ (if ?b then _ else _) (if ?b then _ else _) =>
              destruct b
          end ].

Section Unencodable.

Variables repr_str upper : str -> str.
Variable encodable : str -> bool.

Lemma follows_print_summary (recommendation : value) :
  follows encodable (print_summary repr_str upper encodable recommendation)
    (print_summary repr_str upper permissive recommendation).
Proof. unfold print_summary, print_commit. repeat follows_step. Qed.

(** X23: when standard output cannot encode one of the lines of a
    summary, the summary stops there: the lines before that one are
    printed, that line and those after it are not, and the call ends
    with [UnicodeEncodeError].  The lines of a summary are those it
    hands to a stream that encodes everything. *)
Theorem print_summary_stops_at_unencodable (recommendation : value)
  (before : list str) (bad : str) (after : list str) (r : result unit) :
  writes (print_summary repr_str upper permissive recommendation)
    (before ++ bad :: after) r ->
  forallb encodable before = true ->
  encodable bad = false ->
  writes (print_summary repr_str upper encodable recommendation)
    before (Raise UnicodeEncodeError).
Proof.
  intros W Hb Hbad.
  apply (proj2 (@follows_print_summary recommendation _ r W)
           before bad after eq_refl Hb Hbad).
Qed.


End Unencodable.

Lemma print_summary_stops_at_unencodable_witness :
  writes (print_summary quoted_repr ascii_upper utf8_encodable surrogate_scan)
    [banner; lit "COMMIT RECOMMENDATION SUMMARY"; banner;
     lit "Status: BLOCKED"]
    (Raise UnicodeEncodeError).
Proof.
  refine (@print_summary_stops_at_unencodable quoted_repr ascii_upper
            utf8_encodable surrogate_scan
            [banner; lit "COMMIT RECOMMENDATION SUMMARY"; banner;
             lit "Status: BLOCKED"]
            (lit "Security Scan: " ++ [55296%N])
            [lit "Issues Found: 0"; lit "Commits Proposed: 0"; [];
             no_entry ++ lit " BLOCKED - Cannot proceed with commit";
             lit "Review the security issues in the agent output above."]
            (Ok tt) _ eq_refl eq_refl).
  apply outputs_writes; [apply outputs_print_summary|].
  vm_compute. reflexivity.
Defined.


(** The run on the recommendation with the lone surrogate: four lines,
    then the exception, status 1. *)
Example surrogate_scan_run :
  run quoted_repr ascii_upper utf8_encodable
    (table_load [(lit "doc", surrogate_scan)]) script_name no_file
    (open_tag ++ lit "doc" ++ close_tag) =
  (Console [banner; lit "COMMIT RECOMMENDATION SUMMARY"; banner;
            lit "Status: BLOCKED"] [], 1%Z).
Proof. vm_compute. reflexivity. Qed.

(** A body of bytes, as [!!binary] gives: stripped, then refused by the
    join. *)
Example bytes_body_message :
  format_commit_message quoted_repr
    (VDict [(lit "type", VStr (lit "fix")); (lit "subject", VStr (lit "x"));
            (lit "body", VBytes (lit " hi "))]) =
  Raise TypeError.
Proof. reflexivity. Qed.
